(** * cmlibs.utils.zinc: identifier ranges and datapoint renumbering

    A shallow embedding of the pure-data parts of
    [src/cmlibs/utils/zinc/group.py] (identifier range lists: normalising,
    parsing, printing, extraction from an iterator) and of
    [src/cmlibs/utils/zinc/region.py] (the identifier map computed by
    [convert_nodes_to_datapoints]).

    Modelling conventions.
    - Python integers are [Z]. The interpreter's limit on the number of
      digits converted by [int()] and [str()] is not modelled.
    - An identifier range, the two-element list [[start, stop]], is a pair
      [Z * Z]; a list of ranges is a [list (Z * Z)]. Inner lists are fresh
      objects wherever the code builds them, so the in-place update
      [identifier_ranges[i - 1][1] = ...] is modelled as replacing the pair
      at index [i - 1].
    - A Python [str] is a [list ascii]: characters are the code points
      0..255, with [str.isdigit], [str.strip] and [int()] as Python defines
      them on these code points.
    - A Zinc iterator is the list of identifiers it yields before the first
      invalid object.
    - A raised exception is [None]; [try: ... except: pass] is a [match]
      on the option. Where a caller can see what a loop has changed before
      an exception, the result carries the state left ([outcome]).
    - A Zinc mesh, nodeset or group of one is the set of the identifiers of
      its objects; a field group is its subgroups by dimension and domain
      type; a nodeset whose objects are renumbered is the map from the
      identifiers present to the objects. The Python binding converts an
      identifier it is given to a C [int] and raises [OverflowError] when
      it cannot: this is modelled for the lookups by identifier of
      group.py; the renumbering of region.py is modelled for identifiers
      that stay C [int]s. The conventions are stated with the definitions.
      Reading and writing regions as streams ([copy_nodeset], the end of
      [convert_nodes_to_datapoints]) is left to Zinc and not modelled. *)

From Stdlib Require Import ZArith Ascii String.
From stdpp Require Import base tactics option list sorting gmap pretty.

Local Open Scope Z_scope.

(** ** Python primitives used by the two modules *)

(** The type of Python strings. *)
Definition str : Type := list ascii.

(** [range(a, b)]. *)
Definition py_range (a b : Z) : list Z := seqZ a (b - a).

(** [s.split(sep)] for a one-character separator: never the empty list. *)
Fixpoint py_split (sep : ascii) (s : str) : list str :=
  match s with
  | [] => [[]]
  | c :: s' =>
      if decide (c = sep) then [] :: py_split sep s'
      else match py_split sep s' with
           | piece :: pieces => (c :: piece) :: pieces
           | [] => [[c]]
           end
  end.

(** [c.isspace()] on code points below 256: TAB..CR, FS..US, space, NEL
    and the no-break space. *)
Definition isspace (c : ascii) : bool :=
  let n := Z.of_N (N_of_ascii c) in
  bool_decide (9 ≤ n ≤ 13) || bool_decide (28 ≤ n ≤ 32)
  || bool_decide (n = 133) || bool_decide (n = 160).

(** [c.isdigit()] on code points below 256: the ten decimal digits and the
    superscripts two, three and one. *)
Definition isdigit (c : ascii) : bool :=
  let n := Z.of_N (N_of_ascii c) in
  bool_decide (48 ≤ n ≤ 57) || bool_decide (n = 178)
  || bool_decide (n = 179) || bool_decide (n = 185).

Fixpoint drop_while {A} (p : A → bool) (l : list A) : list A :=
  match l with
  | [] => []
  | x :: l' => if p x then drop_while p l' else l
  end.

Fixpoint take_while {A} (p : A → bool) (l : list A) : list A :=
  match l with
  | [] => []
  | x :: l' => if p x then x :: take_while p l' else []
  end.

(** [s.strip()]. *)
Definition strip (s : str) : str :=
  reverse (drop_while isspace (reverse (drop_while isspace s))).

(** The decimal value of a character that [int()] accepts as a digit. *)
Definition digit_value (c : ascii) : option Z :=
  let n := Z.of_N (N_of_ascii c) in
  if decide (48 ≤ n ≤ 57) then Some (n - 48) else None.

Fixpoint int_digits (acc : Z) (s : str) : option Z :=
  match s with
  | [] => Some acc
  | c :: s' => d ← digit_value c; int_digits (10 * acc + d) s'
  end.

(** [int(s)] for a string [s] of characters that all satisfy [isdigit], the
    only strings the parser passes to it: [None] is [ValueError], raised
    for the empty string and for a digit that is not decimal. *)
Definition py_int (s : str) : option Z :=
  match s with
  | [] => None
  | _ :: _ => int_digits 0 s
  end.

(** [str(z)]. *)
Definition py_str (z : Z) : str := list_ascii_of_string (pretty z).

(** ** group.py *)

(** The order [list.sort()] uses on two-element lists of integers. *)
Definition range_le (r1 r2 : Z * Z) : Prop :=
  r1.1 < r2.1 ∨ (r1.1 = r2.1 ∧ r1.2 ≤ r2.2).

#[global] Instance range_le_dec : RelDecision range_le.
Proof. intros r1 r2. unfold range_le. apply _. Defined.

(** The [while i < len(identifier_ranges)] loop of [identifier_ranges_fix];
    [fuel] bounds the number of iterations. *)
Fixpoint fix_loop (fuel : nat) (i : nat) (identifier_ranges : list (Z * Z))
  : list (Z * Z) :=
  match fuel with
  | O => identifier_ranges
  | S fuel' =>
      if decide (i < length identifier_ranges)%nat then
        match identifier_ranges !! i, identifier_ranges !! (i - 1)%nat with
        | Some cur, Some prev =>
            if decide (cur.1 ≤ prev.2 + 1) then
              let merged :=
                if decide (cur.2 > prev.2)
                then <[(i - 1)%nat := (prev.1, cur.2)]> identifier_ranges
                else identifier_ranges in
              fix_loop fuel' i (delete i merged)
            else fix_loop fuel' (S i) identifier_ranges
        | _, _ => identifier_ranges
        end
      else identifier_ranges
  end.

(** The same loop with a bound on the number of iterations it may run:
    [None] when the condition [i < len(identifier_ranges)] still holds
    after [bound] iterations, so that [Some] means the loop has ended. An
    index out of range is an [IndexError], [None] as well. *)
Fixpoint fix_loop_bounded (bound : nat) (i : nat)
    (identifier_ranges : list (Z * Z)) : option (list (Z * Z)) :=
  if decide (i < length identifier_ranges)%nat then
    match bound with
    | O => None
    | S bound' =>
        match identifier_ranges !! i, identifier_ranges !! (i - 1)%nat with
        | Some cur, Some prev =>
            if decide (cur.1 ≤ prev.2 + 1) then
              let merged :=
                if decide (cur.2 > prev.2)
                then <[(i - 1)%nat := (prev.1, cur.2)]> identifier_ranges
                else identifier_ranges in
              fix_loop_bounded bound' i (delete i merged)
            else fix_loop_bounded bound' (S i) identifier_ranges
        | _, _ => None
        end
    end
  else Some identifier_ranges.

(** [identifier_ranges_fix]: the list as it is left in place. Every
    iteration pops an element or advances [i], so [length] iterations
    are enough (see [fix_loop_fuel]). *)
Definition identifier_ranges_fix (identifier_ranges : list (Z * Z))
  : list (Z * Z) :=
  let sorted := merge_sort range_le identifier_ranges in
  fix_loop (length sorted) 1 sorted.

(** The cleanup of one endpoint: [strip()], then cut at the first character
    that is not a digit. *)
Definition clean_endpoint (e : str) : str := take_while isdigit (strip e).

(** The body of the [try] block for one comma-separated token. *)
Definition parse_identifier_range (identifier_range_string : str)
  : option (Z * Z) :=
  let identifier_range_ends :=
    clean_endpoint <$> py_split "-" identifier_range_string in
  e0 ← identifier_range_ends !! 0%nat;
  start ← py_int e0;
  if decide (length identifier_range_ends = 1%nat) then Some (start, start)
  else
    e1 ← identifier_range_ends !! 1%nat;
    stop ← py_int e1;
    if decide (stop < start) then Some (stop, start) else Some (start, stop).

(** The ranges appended by the [for] loop, before [identifier_ranges_fix]. *)
Definition collect_identifier_ranges (tokens : list str) : list (Z * Z) :=
  foldl (λ identifier_ranges token,
           match parse_identifier_range token with
           | Some r => identifier_ranges ++ [r]
           | None => identifier_ranges
           end) [] tokens.

Definition identifier_ranges_from_string (identifier_ranges_string : str)
  : list (Z * Z) :=
  identifier_ranges_fix
    (collect_identifier_ranges (py_split "," identifier_ranges_string)).

Definition identifier_range_to_string (identifier_range : Z * Z) : str :=
  if decide (identifier_range.1 = identifier_range.2)
  then py_str identifier_range.1
  else py_str identifier_range.1 ++ ["-"%char] ++ py_str identifier_range.2.

Definition identifier_ranges_to_string (identifier_ranges : list (Z * Z))
  : str :=
  (foldl (λ '(identifier_ranges_string, first) identifier_range,
            let identifier_range_string :=
              identifier_range_to_string identifier_range in
            if first : bool then (identifier_range_string, false)
            else (identifier_ranges_string ++ [","%char]
                    ++ identifier_range_string, false))
     ([], true) identifier_ranges).1.

(** The [while obj.isValid()] loop of [domain_iterator_to_identifier_ranges]
    over the identifiers still to come. *)
Fixpoint extract_loop (identifier_ranges : list (Z * Z)) (start stop : Z)
    (iterator : list Z) : list (Z * Z) :=
  match iterator with
  | [] => identifier_ranges ++ [(start, stop)]
  | identifier :: iterator' =>
      if decide (identifier = stop + 1)
      then extract_loop identifier_ranges start identifier iterator'
      else extract_loop (identifier_ranges ++ [(start, stop)])
             identifier identifier iterator'
  end.

Definition domain_iterator_to_identifier_ranges (iterator : list Z)
  : list (Z * Z) :=
  match iterator with
  | [] => []
  | identifier :: iterator' => extract_loop [] identifier identifier iterator'
  end.

(** *** Zinc groups as group.py reads and changes them

    A Zinc domain (a mesh or a nodeset) is the set of the identifiers of
    its objects, and a mesh group or nodeset group is a subset of it. The
    Python binding of Zinc passes an identifier as a C [int]:
    [findElementByIdentifier] and [findNodeByIdentifier] raise
    [OverflowError] for an integer that is not one, so that the identifiers
    of the objects of a domain are C [int]s too (see [c_int]). For a C
    [int] they return an invalid object when the domain has none with the
    identifier, and [addElement] and [addNode] of an invalid object fail
    and change nothing (the code drops their result). An iterator yields
    the members in ascending identifier order, as the docstring of
    [domain_iterator_to_identifier_ranges] requires. *)

(** [createElementiterator()] / [createNodeiterator()] run to the end. *)
Definition domain_iterator (group : gset Z) : list Z :=
  merge_sort Z.le (elements group).

Definition mesh_group_to_identifier_ranges (mesh_group : gset Z)
  : list (Z * Z) :=
  domain_iterator_to_identifier_ranges (domain_iterator mesh_group).

Definition nodeset_group_to_identifier_ranges (nodeset_group : gset Z)
  : list (Z * Z) :=
  domain_iterator_to_identifier_ranges (domain_iterator nodeset_group).

(** The integers the binding converts to a C [int]. *)
Definition c_int (identifier : Z) : Prop :=
  -2147483648 ≤ identifier ≤ 2147483647.

#[global] Instance c_int_dec identifier : Decision (c_int identifier).
Proof. unfold c_int. apply _. Defined.

(** How a call that changes a group ends: it returns, or [OverflowError]
    leaves it; either way [group] is the group as it is then. No handler
    undoes what the loop has added before the exception. *)
Inductive outcome : Type :=
  | Returned (group : gset Z)
  | OverflowError (group : gset Z).

(** [group.addElement(mesh.findElementByIdentifier(identifier))], and the
    same for nodes; [None] is the [OverflowError] of the lookup. *)
Definition add_object (master group : gset Z) (identifier : Z)
  : option (gset Z) :=
  if decide (c_int identifier) then
    Some (if decide (identifier ∈ master) then group ∪ {[identifier]}
          else group)
  else None.

(** The inner loop, [for identifier in range(...)], over the identifiers
    still to come. *)
Fixpoint add_objects (master group : gset Z) (identifiers : list Z)
  : outcome :=
  match identifiers with
  | [] => Returned group
  | identifier :: identifiers' =>
      match add_object master group identifier with
      | Some group' => add_objects master group' identifiers'
      | None => OverflowError group
      end
  end.

(** [mesh] is the master mesh of [mesh_group]; the outer loop over the
    ranges still to come. *)
Fixpoint mesh_group_add_identifier_ranges (mesh mesh_group : gset Z)
    (identifier_ranges : list (Z * Z)) : outcome :=
  match identifier_ranges with
  | [] => Returned mesh_group
  | identifier_range :: identifier_ranges' =>
      match add_objects mesh mesh_group
              (py_range identifier_range.1 (identifier_range.2 + 1)) with
      | Returned group' =>
          mesh_group_add_identifier_ranges mesh group' identifier_ranges'
      | OverflowError group' => OverflowError group'
      end
  end.

Fixpoint nodeset_group_add_identifier_ranges (nodeset nodeset_group : gset Z)
    (identifier_ranges : list (Z * Z)) : outcome :=
  match identifier_ranges with
  | [] => Returned nodeset_group
  | identifier_range :: identifier_ranges' =>
      match add_objects nodeset nodeset_group
              (py_range identifier_range.1 (identifier_range.2 + 1)) with
      | Returned group' =>
          nodeset_group_add_identifier_ranges nodeset group' identifier_ranges'
      | OverflowError group' => OverflowError group'
      end
  end.

(** A field group, as the three group functions see it: its mesh group for
    each dimension and its nodeset groups for nodes and for datapoints,
    [None] when the group has none ([isValid()] is false). The two groups
    of a call are taken in one region, with subelement handling off, so
    that [addElementsConditional(other_group)] adds the members of
    [other_group]'s mesh group of the same mesh, and
    [addNodesConditional(other_group)] those of its nodeset group of the
    same nodeset. *)
Record field_group : Type := FieldGroup {
  mesh_groups : gmap nat (gset Z);
  nodes_group : option (gset Z);
  datapoints_group : option (gset Z);
}.

(** [DOMAIN_TYPE_NODES] and [DOMAIN_TYPE_DATAPOINTS]. *)
Inductive field_domain_type : Type :=
  | DOMAIN_TYPE_NODES
  | DOMAIN_TYPE_DATAPOINTS.

(** [g.isValid() and (g.getSize() > 0)]. *)
Definition occupied (subgroup : option (gset Z)) : bool :=
  match subgroup with
  | Some members => bool_decide (0 < size members)%nat
  | None => false
  end.

(** [getOrCreate...Group] followed by [add...Conditional(other_group)]. *)
Definition add_conditional (subgroup other_subgroup : option (gset Z))
  : option (gset Z) :=
  Some (default ∅ subgroup ∪ default ∅ other_subgroup).

(** [getNodesetGroup(findNodesetByFieldDomainType(fieldDomainType))]. *)
Definition nodeset_group_of (group : field_group)
    (fieldDomainType : field_domain_type) : option (gset Z) :=
  match fieldDomainType with
  | DOMAIN_TYPE_NODES => nodes_group group
  | DOMAIN_TYPE_DATAPOINTS => datapoints_group group
  end.

(** The [for dimension in range(3, -1, -1)] loop of
    [group_add_group_elements] over the dimensions still to visit; the
    [return] in it ends the loop. *)
Fixpoint group_add_group_elements_loop (dimensions : list nat)
    (group other_group : field_group) (highest_dimension_only : bool)
  : field_group :=
  match dimensions with
  | [] => group
  | dimension :: dimensions' =>
      if decide (0 < dimension)%nat then
        if occupied (mesh_groups other_group !! dimension) then
          let group' :=
            FieldGroup
              (<[dimension := default ∅ (mesh_groups group !! dimension)
                              ∪ default ∅ (mesh_groups other_group !! dimension)]>
                 (mesh_groups group))
              (nodes_group group) (datapoints_group group) in
          if highest_dimension_only then group'
          else group_add_group_elements_loop dimensions' group' other_group
                 highest_dimension_only
        else group_add_group_elements_loop dimensions' group other_group
               highest_dimension_only
      else
        if occupied (nodes_group other_group) then
          group_add_group_elements_loop dimensions'
            (FieldGroup (mesh_groups group)
               (add_conditional (nodes_group group) (nodes_group other_group))
               (datapoints_group group))
            other_group highest_dimension_only
        else group_add_group_elements_loop dimensions' group other_group
               highest_dimension_only
  end.

Definition group_add_group_elements (group other_group : field_group)
    (highest_dimension_only : bool) : field_group :=
  group_add_group_elements_loop [3; 2; 1; 0]%nat group other_group
    highest_dimension_only.

Definition group_add_group_nodes (group other_group : field_group)
    (fieldDomainType : field_domain_type) : field_group :=
  if occupied (nodeset_group_of other_group fieldDomainType) then
    match fieldDomainType with
    | DOMAIN_TYPE_NODES =>
        FieldGroup (mesh_groups group)
          (add_conditional (nodes_group group) (nodes_group other_group))
          (datapoints_group group)
    | DOMAIN_TYPE_DATAPOINTS =>
        FieldGroup (mesh_groups group) (nodes_group group)
          (add_conditional (datapoints_group group)
             (datapoints_group other_group))
    end
  else group.

(** The [for dimension in range(3, 0, -1)] loop of
    [group_get_highest_dimension]; [None] when it ends without a
    [return]. *)
Fixpoint highest_mesh_dimension (dimensions : list nat) (group : field_group)
  : option Z :=
  match dimensions with
  | [] => None
  | dimension :: dimensions' =>
      if occupied (mesh_groups group !! dimension)
      then Some (Z.of_nat dimension)
      else highest_mesh_dimension dimensions' group
  end.

Definition group_get_highest_dimension (group : field_group) : Z :=
  match highest_mesh_dimension [3; 2; 1]%nat group with
  | Some dimension => dimension
  | None => if occupied (nodes_group group) then 0 else -1
  end.

(** ** region.py *)

(** [_find_missing]: the integers strictly between consecutive elements. *)
Definition _find_missing (lst : list Z) : list Z :=
  '(x, y) ← zip lst (drop 1 lst);
  filter (λ _, y - x > 1) (py_range (x + 1) y).

(** [sorted(list(set(existing_datapoint_identifiers + existing_nodes_identifiers)))]. *)
Definition in_use_identifiers (nodes datapoints : list Z) : list Z :=
  let existing_nodes_identifiers := merge_sort Z.le nodes in
  let existing_datapoint_identifiers := merge_sort Z.le datapoints in
  merge_sort Z.le
    (elements (list_to_set (C := gset Z)
                 (existing_datapoint_identifiers ++ existing_nodes_identifiers))).

(** [set(sorted(get_identifiers(nodes)))]. *)
Definition existing_nodes_identifiers_set (nodes : list Z) : gset Z :=
  list_to_set (merge_sort Z.le nodes).

(** The initial value of [available_identifiers]; [None] is the
    [IndexError] of [in_use_identifiers[0]] on an empty list. *)
Definition initial_available_identifiers (in_use : list Z) : option (list Z) :=
  first ← in_use !! 0%nat;
  Some (py_range 1 first ++ _find_missing in_use).

(** The variables the [while datapoint.isValid()] loop updates. *)
Record remap_state : Type := RemapState {
  identifier_map : gmap Z Z;
  available_identifiers : list Z;
  max_identifier : Z;
}.

(** One iteration of the loop, for the datapoint [datapoint_identifier]. *)
Definition remap_step (existing_nodes_identifiers_set : gset Z)
    (st : remap_state) (datapoint_identifier : Z) : remap_state :=
  match decide (datapoint_identifier ∈ existing_nodes_identifiers_set),
        available_identifiers st with
  | left _, next_identifier :: available =>
      RemapState (<[datapoint_identifier := next_identifier]> (identifier_map st))
        available (max_identifier st)
  | _, _ =>
      let max_identifier' := max_identifier st + 1 in
      RemapState (<[datapoint_identifier := max_identifier']> (identifier_map st))
        (available_identifiers st) max_identifier'
  end.

(** The state before the loop: lines 21 to 30. [None] is the [IndexError]
    raised when both nodesets are empty. *)
Definition remap_init (nodes datapoints : list Z) : option remap_state :=
  let in_use := in_use_identifiers nodes datapoints in
  max_identifier ← last in_use;
  available ← initial_available_identifiers in_use;
  Some (RemapState ∅ available max_identifier).

(** The state after the loop has visited [candidates], the identifiers the
    datapoint iterator yields. *)
Definition remap_run (nodes datapoints candidates : list Z)
  : option remap_state :=
  st ← remap_init nodes datapoints;
  Some (foldl (remap_step (existing_nodes_identifiers_set nodes)) st candidates).

(** [identifier_map] as line 41 finds it. *)
Definition compute_identifier_map (nodes datapoints candidates : list Z)
  : option (gmap Z Z) :=
  identifier_map <$> remap_run nodes datapoints candidates.

(** The identifier map [convert_nodes_to_datapoints] applies: the two
    [getSize() > 0] guards, then the loop over the datapoints themselves.
    No renumbering is the empty map. *)
Definition convert_nodes_to_datapoints_identifier_map
    (nodes datapoints : list Z) : option (gmap Z Z) :=
  if decide (0 < length nodes)%nat then
    if decide (0 < length datapoints)%nat
    then compute_identifier_map nodes datapoints datapoints
    else Some ∅
  else Some ∅.

(** The identifier a datapoint has once the map is applied: the one
    [setIdentifier] gives it, or its own when the map has no entry. *)
Definition final_identifier (m : gmap Z Z) (datapoint_identifier : Z) : Z :=
  default datapoint_identifier (m !! datapoint_identifier).



(** ** Vocabulary of the statements *)

(** The identifiers the nested loops of [mesh_group_add_identifier_ranges]
    and [nodeset_group_add_identifier_ranges] visit, in order. *)
Definition identifier_ranges_identifiers (identifier_ranges : list (Z * Z))
  : list Z :=
  identifier_range ← identifier_ranges;
  py_range identifier_range.1 (identifier_range.2 + 1).

(** [x] lies in the range [r]. *)
Definition in_range (r : Z * Z) (x : Z) : Prop := r.1 ≤ x ≤ r.2.

(** The identifier set of a range list. *)
Definition covers (l : list (Z * Z)) (x : Z) : Prop :=
  ∃ r, r ∈ l ∧ in_range r x.

(** A range is well formed when [start <= stop]. *)
Definition wf_range (r : Z * Z) : Prop := r.1 ≤ r.2.

(** [r2] starts after [r1] stops, with at least one integer in between:
    the two neither overlap nor touch. *)
Definition gap_before (r1 r2 : Z * Z) : Prop := r1.2 + 1 < r2.1.

(** The invariant of an Identifier Range List: well-formed ranges, ascending,
    any two of them apart. *)
Definition canonical (l : list (Z * Z)) : Prop :=
  Forall wf_range l ∧ StronglySorted gap_before l.

(** What the loop of [identifier_ranges_fix] computes from index [i] on,
    [prev] being the range at [i - 1] and [rest] the ranges from [i]. *)
Fixpoint merge_from (prev : Z * Z) (rest : list (Z * Z)) : list (Z * Z) :=
  match rest with
  | [] => [prev]
  | cur :: rest' =>
      if decide (cur.1 ≤ prev.2 + 1)
      then merge_from (prev.1, if decide (cur.2 > prev.2) then cur.2 else prev.2) rest'
      else prev :: merge_from cur rest'
  end.

(** What the loop keeps true of its variables, [in_use] being the
    identifiers in use and [max0] the largest of them. *)
Record remap_inv (in_use : list Z) (max0 : Z) (st : remap_state) : Prop :=
  RemapInv {
    inv_max : max0 ≤ max_identifier st;
    inv_available_sorted : StronglySorted Z.lt (available_identifiers st);
    inv_available_fresh :
      ∀ g : Z, g ∈ available_identifiers st → (g ∉ in_use) ∧ g < max0;
    inv_value_fresh :
      ∀ (c v : Z), identifier_map st !! c = Some v →
             (v ∉ in_use) ∧ (v ∉ available_identifiers st) ∧ v ≤ max_identifier st;
    inv_injective :
      ∀ (c1 c2 v : Z), identifier_map st !! c1 = Some v →
                 identifier_map st !! c2 = Some v → c1 = c2;
  }.


(** The members of a field group: the elements of one dimension, and the
    nodes or datapoints; none when the group has no such subgroup. *)
Definition mesh_members (group : field_group) (dimension : nat) : gset Z :=
  default ∅ (mesh_groups group !! dimension).

Definition nodeset_members (group : field_group)
    (fieldDomainType : field_domain_type) : gset Z :=
  default ∅ (nodeset_group_of group fieldDomainType).

(** The ASCII decimal digits. *)
Definition is_decimal (c : ascii) : Prop :=
  48 ≤ Z.of_N (N_of_ascii c) ≤ 57.

(** * Properties *)

(** ** The sort order *)

Section order.

#[global] Instance range_le_refl : Reflexive range_le.
Proof. intros [a b]. right. simpl. lia. Qed.

#[global] Instance range_le_trans : Transitive range_le.
Proof. intros [a b] [c d] [e f]. unfold range_le. simpl. lia. Qed.

#[global] Instance range_le_total : Total range_le.
Proof. intros [a b] [c d]. unfold range_le. simpl. lia. Qed.

#[global] Instance range_le_antisymm : AntiSymm (=) range_le.
Proof.
  intros [a b] [c d]. unfold range_le. simpl. intros H1 H2.
  f_equal; lia.
Qed.

Lemma merge_sort_range_sorted (l : list (Z * Z)) :
  StronglySorted range_le (merge_sort range_le l).
Proof. apply StronglySorted_merge_sort; apply _. Qed.

(** The order is total and antisymmetric, so a list has one sorted
    arrangement: whatever algorithm [list.sort()] runs, it returns the list
    [merge_sort] returns. *)
Lemma sorted_arrangement_unique (l l' : list (Z * Z)) :
  l' ≡ₚ l → StronglySorted range_le l' → l' = merge_sort range_le l.
Proof.
  intros Hp Hs. apply (StronglySorted_unique range_le); auto.
  - apply merge_sort_range_sorted.
  - by rewrite merge_sort_Permutation.
Qed.

(** A sorted list is left as it is by the sort. *)
Lemma merge_sort_range_id (l : list (Z * Z)) :
  StronglySorted range_le l → merge_sort range_le l = l.
Proof.
  intros Hl. apply (StronglySorted_unique range_le); auto.
  - apply merge_sort_range_sorted.
  - apply merge_sort_Permutation.
Qed.

End order.

(** ** The merge loop *)

Section merge_loop.

Implicit Types (l rest pre : list (Z * Z)) (prev cur r : Z * Z).

Lemma delete_after_middle {A} (l1 l2 : list A) (x y : A) :
  delete (S (length l1)) (l1 ++ x :: y :: l2) = l1 ++ x :: l2.
Proof. induction l1 as [|z l1 IH]; [done | simpl; by f_equal]. Qed.

(** The loop run from index [length pre + 1] with enough fuel leaves the
    prefix alone and merges the rest into [prev]. *)
Lemma fix_loop_merge_from fuel pre prev rest :
  (length rest ≤ fuel)%nat →
  fix_loop fuel (S (length pre)) (pre ++ prev :: rest)
  = pre ++ merge_from prev rest.
Proof.
  revert pre prev rest.
  induction fuel as [|fuel IH]; intros pre prev rest Hfuel.
  - destruct rest; [done | simpl in Hfuel; lia].
  - cbn [fix_loop]. rewrite length_app. cbn [length].
    destruct rest as [|cur rest].
    + rewrite decide_False by (simpl; lia). done.
    + rewrite decide_True by (simpl; lia).
      replace (S (length pre) - 1)%nat with (length pre) by lia.
      rewrite (lookup_app_r pre) by lia.
      replace (S (length pre) - length pre)%nat with 1%nat by lia.
      rewrite list_lookup_middle by done.
      cbn [lookup list_lookup merge_from].
      simpl in Hfuel.
      destruct (decide (cur.1 ≤ prev.2 + 1)) as [Hm|Hm].
      * destruct (decide (cur.2 > prev.2)) as [Hs|Hs].
        -- rewrite insert_app_r_alt by lia.
           replace (length pre - length pre)%nat with 0%nat by lia.
           cbn [insert list_insert].
           rewrite (delete_after_middle pre).
           apply IH. lia.
        -- destruct prev as [a b]. simpl.
           rewrite (delete_after_middle pre).
           apply IH. lia.
      * replace (pre ++ prev :: cur :: rest)
          with ((pre ++ [prev]) ++ cur :: rest) by (by rewrite <- app_assoc).
        replace (S (S (length pre))) with (S (length (pre ++ [prev])))
          by (rewrite length_app; simpl; lia).
        rewrite IH by lia. by rewrite <- app_assoc.
Qed.

Lemma identifier_ranges_fix_unfold l :
  identifier_ranges_fix l
  = match merge_sort range_le l with
    | [] => []
    | prev :: rest => merge_from prev rest
    end.
Proof.
  unfold identifier_ranges_fix. cbn zeta.
  destruct (merge_sort range_le l) as [|prev rest]; [done|].
  apply (fix_loop_merge_from _ [] prev rest). simpl. lia.
Qed.

(** The loop is over after [length l - 1] iterations: more fuel changes
    nothing. *)
Lemma fix_loop_fuel fuel l :
  (length l ≤ S fuel)%nat → fix_loop fuel 1 l = fix_loop (length l) 1 l.
Proof.
  destruct l as [|prev rest]; intros Hlen.
  - by destruct fuel.
  - simpl in Hlen.
    pose proof (fix_loop_merge_from fuel [] prev rest) as H1.
    pose proof (fix_loop_merge_from (length (prev :: rest)) [] prev rest) as H2.
    cbn [length app] in H1, H2 |- *. rewrite H1, H2 by lia. done.
Qed.

(** The loop run from index [length pre + 1] ends after exactly
    [length rest] iterations. *)
Lemma fix_loop_bounded_merge_from bound pre prev rest :
  fix_loop_bounded bound (S (length pre)) (pre ++ prev :: rest)
  = if decide (length rest ≤ bound)%nat
    then Some (pre ++ merge_from prev rest) else None.
Proof.
  revert pre prev rest.
  induction bound as [|bound IH]; intros pre prev rest.
  - destruct rest as [|cur rest].
    + cbn [fix_loop_bounded]. rewrite length_app. cbn [length].
      rewrite decide_False by lia. by rewrite decide_True by (simpl; lia).
    + cbn [fix_loop_bounded]. rewrite length_app. cbn [length].
      rewrite decide_True by lia. by rewrite decide_False by (simpl; lia).
  - cbn [fix_loop_bounded]. rewrite length_app. cbn [length].
    destruct rest as [|cur rest].
    + rewrite decide_False by (simpl; lia).
      by rewrite decide_True by (simpl; lia).
    + rewrite decide_True by (simpl; lia).
      replace (S (length pre) - 1)%nat with (length pre) by lia.
      rewrite (lookup_app_r pre) by lia.
      replace (S (length pre) - length pre)%nat with 1%nat by lia.
      rewrite list_lookup_middle by done.
      cbn [lookup list_lookup merge_from length].
      destruct (decide (cur.1 ≤ prev.2 + 1)) as [Hm|Hm].
      * destruct (decide (cur.2 > prev.2)) as [Hs|Hs].
        -- rewrite insert_app_r_alt by lia.
           replace (length pre - length pre)%nat with 0%nat by lia.
           cbn [insert list_insert].
           rewrite (delete_after_middle pre), IH.
           destruct (decide (length rest ≤ bound)%nat);
             [by rewrite decide_True by lia | by rewrite decide_False by lia].
        -- destruct prev as [a b]. simpl.
           rewrite (delete_after_middle pre), IH.
           destruct (decide (length rest ≤ bound)%nat);
             [by rewrite decide_True by lia | by rewrite decide_False by lia].
      * replace (pre ++ prev :: cur :: rest)
          with ((pre ++ [prev]) ++ cur :: rest) by (by rewrite <- app_assoc).
        replace (S (S (length pre))) with (S (length (pre ++ [prev])))
          by (rewrite length_app; simpl; lia).
        rewrite IH, <- app_assoc.
        destruct (decide (length rest ≤ bound)%nat);
          [by rewrite decide_True by lia | by rewrite decide_False by lia].
Qed.

Lemma merge_from_length prev rest :
  (length (merge_from prev rest) ≤ S (length rest))%nat.
Proof.
  revert prev. induction rest as [|cur rest IH]; intros prev; simpl; [lia|].
  case_decide; simpl.
  - etrans; [apply IH | lia].
  - specialize (IH cur). lia.
Qed.

(** Every endpoint of the result is an endpoint of the input. *)
Lemma merge_from_endpoints prev rest r :
  r ∈ merge_from prev rest →
  r.1 ∈ (prev :: rest).*1 ∧ r.2 ∈ (prev :: rest).*2.
Proof.
  revert prev. induction rest as [|cur rest IH]; intros prev; simpl.
  - intros ->%list_elem_of_singleton. split; apply list_elem_of_here.
  - case_decide.
    + intros [H1 H2]%IH. simpl in *. split.
      * apply elem_of_cons in H1 as [->|H1]; [left|do 2 right; done].
      * apply elem_of_cons in H2 as [->|H2]; [|do 2 right; done].
        case_decide; [right; left | left].
    + intros [->|[H1 H2]%IH]%elem_of_cons.
      * split; left.
      * split; by right.
Qed.

Lemma covers_nil x : ¬ covers [] x.
Proof. intros (r & Hr & _). by apply elem_of_nil in Hr. Qed.

Lemma covers_nil_iff x : covers [] x ↔ False.
Proof. split; [apply covers_nil | done]. Qed.

Lemma covers_cons r l x : covers (r :: l) x ↔ in_range r x ∨ covers l x.
Proof.
  unfold covers. split.
  - intros (r' & [->|Hr']%elem_of_cons & Hx); [by left | right; eauto].
  - intros [Hx | (r' & Hr' & Hx)].
    + exists r. split; [left | done].
    + exists r'. split; [by right | done].
Qed.

Lemma covers_app l1 l2 x : covers (l1 ++ l2) x ↔ covers l1 x ∨ covers l2 x.
Proof.
  induction l1 as [|r l1 IH]; simpl.
  - split; [by right | intros [[]%covers_nil|]; done].
  - rewrite !covers_cons, IH. tauto.
Qed.

Lemma covers_Permutation l1 l2 x : l1 ≡ₚ l2 → covers l1 x ↔ covers l2 x.
Proof. intros Hp. unfold covers. by setoid_rewrite Hp. Qed.

(** The merge of a list sorted by start, all of whose starts are at least
    the start of [prev]. *)
Lemma merge_from_spec prev rest :
  wf_range prev → Forall wf_range rest →
  Forall (λ r, prev.1 ≤ r.1) rest →
  StronglySorted (λ r1 r2, r1.1 ≤ r2.1) rest →
  canonical (merge_from prev rest)
  ∧ ∀ x, covers (merge_from prev rest) x ↔ in_range prev x ∨ covers rest x.
Proof.
  revert prev.
  induction rest as [|cur rest IH]; intros prev Hprev Hwf Hle Hsorted; simpl.
  - split.
    + split; [by apply Forall_singleton | repeat constructor].
    + intros x. rewrite covers_cons. pose proof (covers_nil x). tauto.
  - apply Forall_cons in Hwf as [Hcur Hwf].
    apply Forall_cons in Hle as [Hpc Hle].
    apply StronglySorted_inv in Hsorted as [Hsorted Hcr].
    case_decide as Hm.
    + destruct (IH (prev.1, if decide (cur.2 > prev.2) then cur.2 else prev.2))
        as [Hcan Hcov]; auto.
      { unfold wf_range in *. simpl. case_decide; lia. }
      split; [done|]. intros x. rewrite Hcov, covers_cons.
      unfold in_range, wf_range in *. simpl. case_decide; intuition lia.
    + destruct (IH cur) as [[Hwf' Hss] Hcov]; auto.
      split; [split|].
      * by constructor.
      * constructor; [done|].
        apply Forall_forall. intros r [Hr _]%merge_from_endpoints.
        unfold gap_before. simpl in Hr.
        apply elem_of_cons in Hr as [->|Hr]; [lia|].
        apply list_elem_of_fmap in Hr as (r' & -> & Hr').
        rewrite Forall_forall in Hcr. specialize (Hcr _ Hr'). simpl in Hcr. lia.
      * intros x. rewrite !covers_cons, Hcov. tauto.
Qed.

Lemma sorted_by_start l :
  StronglySorted range_le l → StronglySorted (λ r1 r2, r1.1 ≤ r2.1) l.
Proof.
  induction 1 as [|r l _ IH Hr]; constructor; [done|].
  eapply Forall_impl; [exact Hr|]. intros r' [?|[? _]]; simpl in *; lia.
Qed.

(** On well-formed ranges [identifier_ranges_fix] returns a canonical list
    with the identifier set of its argument. *)
Lemma identifier_ranges_fix_spec l :
  Forall wf_range l →
  canonical (identifier_ranges_fix l)
  ∧ ∀ x, covers (identifier_ranges_fix l) x ↔ covers l x.
Proof.
  intros Hwf. rewrite identifier_ranges_fix_unfold.
  pose proof (merge_sort_range_sorted l) as Hs.
  pose proof (merge_sort_Permutation range_le l) as Hp.
  rewrite <- Hp in Hwf.
  destruct (merge_sort range_le l) as [|prev rest].
  - split; [split; constructor|].
    intros x. by rewrite <- (covers_Permutation _ _ x Hp).
  - apply Forall_cons in Hwf as [Hprev Hwf].
    apply sorted_by_start, StronglySorted_inv in Hs as [Hs Hle].
    destruct (merge_from_spec prev rest) as [Hcan Hcov]; auto.
    split; [done|]. intros x.
    by rewrite Hcov, <- (covers_Permutation _ _ x Hp), covers_cons.
Qed.

Lemma identifier_ranges_fix_length l :
  (length (identifier_ranges_fix l) ≤ length l)%nat.
Proof.
  rewrite identifier_ranges_fix_unfold.
  rewrite <- (Permutation_length (merge_sort_Permutation range_le l)).
  destruct (merge_sort range_le l) as [|prev rest]; [done|].
  apply merge_from_length.
Qed.

(** Every endpoint of the normalised list is an endpoint of the input. *)
Lemma identifier_ranges_fix_endpoints l r :
  r ∈ identifier_ranges_fix l → r.1 ∈ l.*1 ∧ r.2 ∈ l.*2.
Proof.
  rewrite identifier_ranges_fix_unfold.
  pose proof (merge_sort_Permutation range_le l) as Hp.
  destruct (merge_sort range_le l) as [|prev rest].
  - by intros ?%elem_of_nil.
  - intros Hr%merge_from_endpoints. by rewrite <- Hp.
Qed.

End merge_loop.

(** ** Canonical range lists *)

Section canonical_lists.

Implicit Types (l : list (Z * Z)) (r : Z * Z).

Lemma canonical_nil : canonical [].
Proof. split; constructor. Qed.

Lemma canonical_cons_inv r l :
  canonical (r :: l) → wf_range r ∧ canonical l ∧ Forall (gap_before r) l.
Proof.
  intros [[Hr Hl]%Forall_cons [Hs Hg]%StronglySorted_inv].
  by repeat split.
Qed.

(** Whatever the tail of a canonical list covers lies beyond the head. *)
Lemma canonical_tail_beyond r l x :
  canonical (r :: l) → covers l x → r.2 + 1 < x.
Proof.
  intros (_ & _ & Hg)%canonical_cons_inv (r' & Hr' & Hx).
  rewrite Forall_forall in Hg. specialize (Hg _ Hr').
  unfold gap_before, in_range in *. lia.
Qed.

(** A canonical list is determined by the identifiers it covers. *)
Lemma canonical_unique l1 l2 :
  canonical l1 → canonical l2 →
  (∀ x, covers l1 x ↔ covers l2 x) → l1 = l2.
Proof.
  revert l2. induction l1 as [|[a b] t1 IH]; intros [|[c d] t2] H1 H2 Hcov.
  - done.
  - apply canonical_cons_inv in H2 as (Hwf & _ & _).
    destruct (covers_nil c). apply Hcov, covers_cons. left. split; simpl; [lia|done].
  - apply canonical_cons_inv in H1 as (Hwf & _ & _).
    destruct (covers_nil a). apply Hcov, covers_cons. left. split; simpl; [lia|done].
  - assert (Hb1 : ∀ x, covers t1 x → b + 1 < x).
    { intros x. apply (canonical_tail_beyond (a, b)), H1. }
    assert (Hb2 : ∀ x, covers t2 x → d + 1 < x).
    { intros x. apply (canonical_tail_beyond (c, d)), H2. }
    pose proof H1 as (Hwf1 & Hc1 & _)%canonical_cons_inv.
    pose proof H2 as (Hwf2 & Hc2 & _)%canonical_cons_inv.
    unfold wf_range in Hwf1, Hwf2. simpl in *.
    assert (Hx : ∀ x, (a ≤ x ≤ b ∨ covers t1 x) ↔ (c ≤ x ≤ d ∨ covers t2 x)).
    { intros x. specialize (Hcov x). rewrite !covers_cons in Hcov. exact Hcov. }
    assert (a = c) as <-.
    { destruct (proj1 (Hx a) ltac:(left; lia)) as [?|?%Hb2];
        destruct (proj2 (Hx c) ltac:(left; lia)) as [?|?%Hb1]; lia. }
    assert (b = d) as <-.
    { destruct (Z.lt_trichotomy b d) as [?|[?|?]]; [|done|].
      - destruct (proj2 (Hx (b + 1)) ltac:(left; lia)) as [?|?%Hb1]; lia.
      - destruct (proj1 (Hx (d + 1)) ltac:(left; lia)) as [?|?%Hb2]; lia. }
    f_equal. apply IH; [done..|]. intros x. split; intros Ht.
    + destruct (proj1 (Hx x) ltac:(by right)) as [?|?]; [|done].
      apply Hb1 in Ht. lia.
    + destruct (proj2 (Hx x) ltac:(by right)) as [?|?]; [|done].
      apply Hb2 in Ht. lia.
Qed.

(** Idempotence: a canonical list is left unchanged. *)
Lemma identifier_ranges_fix_canonical l :
  canonical l → identifier_ranges_fix l = l.
Proof.
  intros Hl. destruct (identifier_ranges_fix_spec l) as [Hcan Hcov]; [apply Hl|].
  by apply canonical_unique.
Qed.

End canonical_lists.

(** ** Normalisation: the claims *)

Section normalisation.

(** C8. For a range list whose ranges all have [start <= stop],
    [identifier_ranges_fix] keeps the set of covered integers, returns a
    canonical list (ascending, no two ranges overlapping or adjacent), and
    that list is the minimal one: it is the only canonical list covering
    the set, and no list of well-formed ranges covering the set is
    shorter. *)
Theorem identifier_ranges_fix_coverage_minimal (l : list (Z * Z)) :
  Forall wf_range l →
  (∀ x, covers (identifier_ranges_fix l) x ↔ covers l x)
  ∧ canonical (identifier_ranges_fix l)
  ∧ (∀ l', canonical l' → (∀ x, covers l' x ↔ covers l x) →
           l' = identifier_ranges_fix l)
  ∧ (∀ l', Forall wf_range l' → (∀ x, covers l' x ↔ covers l x) →
           (length (identifier_ranges_fix l) ≤ length l')%nat).
Proof.
  intros Hwf. destruct (identifier_ranges_fix_spec l Hwf) as [Hcan Hcov].
  split; [done|]. split; [done|]. split.
  - intros l' Hl' Hsame. apply canonical_unique; [done..|].
    intros x. by rewrite Hsame, Hcov.
  - intros l' Hwf' Hsame.
    destruct (identifier_ranges_fix_spec l' Hwf') as [Hcan' Hcov'].
    rewrite <- (canonical_unique (identifier_ranges_fix l')
                  (identifier_ranges_fix l)); [|done..|].
    + apply identifier_ranges_fix_length.
    + intros x. by rewrite Hcov', Hsame, Hcov.
Qed.

Lemma identifier_ranges_fix_coverage_minimal_witness :
  let l := [(5, 9); (1, 3); (4, 4); (20, 22); (2, 3)] in
  Forall wf_range l
  ∧ identifier_ranges_fix l = [(1, 9); (20, 22)]
  ∧ (∀ x, covers (identifier_ranges_fix l) x ↔ covers l x)
  ∧ canonical (identifier_ranges_fix l)
  ∧ (∀ l', canonical l' → (∀ x, covers l' x ↔ covers l x) →
           l' = identifier_ranges_fix l)
  ∧ (∀ l', Forall wf_range l' → (∀ x, covers l' x ↔ covers l x) →
           (length (identifier_ranges_fix l) ≤ length l')%nat).
Proof.
  assert (Hwf : Forall wf_range [(5, 9); (1, 3); (4, 4); (20, 22); (2, 3)]).
  { repeat constructor; unfold wf_range; simpl; lia. }
  split; [exact Hwf|]. split; [reflexivity|].
  exact (identifier_ranges_fix_coverage_minimal _ Hwf).
Defined.

(** C3, as the spec states it, fails when the second range lies wholly
    below the first: [[10,20]] and [[1,2]] satisfy [c <= b + 1] and stay
    two ranges. *)
Lemma identifier_ranges_fix_pair_counterexample :
  10 ≤ 20 ∧ 1 ≤ 2 ∧ 1 ≤ 20 + 1
  ∧ identifier_ranges_fix [(10, 20); (1, 2)] = [(1, 2); (10, 20)]
  ∧ identifier_ranges_fix [(10, 20); (1, 2)] ≠ [(Z.min 10 1, Z.max 20 2)].
Proof. repeat split; try lia; try reflexivity. discriminate. Qed.

(** C3, amended. Two ranges [[a,b]], [[c,d]] with [a <= b], [c <= d] that
    overlap or touch, that is [c <= b + 1] and [a <= d + 1], are normalised
    to the single range [[min a c, max b d]]. *)
Theorem identifier_ranges_fix_pair (a b c d : Z) :
  a ≤ b → c ≤ d → c ≤ b + 1 → a ≤ d + 1 →
  identifier_ranges_fix [(a, b); (c, d)] = [(Z.min a c, Z.max b d)].
Proof.
  intros Hab Hcd Hcb Had. symmetry.
  assert (Hwf : Forall wf_range [(a, b); (c, d)]) by (by repeat constructor).
  destruct (identifier_ranges_fix_spec _ Hwf) as [Hcan Hcov].
  apply canonical_unique; [|done|].
  - split; repeat constructor. unfold wf_range. simpl. lia.
  - intros x. rewrite Hcov, !covers_cons, covers_nil_iff.
    unfold in_range. simpl. lia.
Qed.

Lemma identifier_ranges_fix_pair_witness :
  4 ≤ 9 ∧ 1 ≤ 3 ∧ 1 ≤ 9 + 1 ∧ 4 ≤ 3 + 1
  ∧ identifier_ranges_fix [(4, 9); (1, 3)] = [(Z.min 4 1, Z.max 9 3)].
Proof.
  do 4 (split; [lia|]).
  apply (identifier_ranges_fix_pair 4 9 1 3); lia.
Defined.

End normalisation.

(** ** Extraction from an iterator *)

Section extraction.

Lemma extract_loop_acc acc start stop iterator :
  extract_loop acc start stop iterator
  = acc ++ extract_loop [] start stop iterator.
Proof.
  revert acc start stop.
  induction iterator as [|identifier iterator IH]; intros acc start stop; simpl.
  - done.
  - case_decide; [apply IH|].
    rewrite (IH (acc ++ _)), (IH [_]). by rewrite <- app_assoc.
Qed.

Lemma extract_loop_spec start stop iterator :
  start ≤ stop → StronglySorted Z.lt (stop :: iterator) →
  canonical (extract_loop [] start stop iterator)
  ∧ ∀ x, covers (extract_loop [] start stop iterator) x
         ↔ start ≤ x ≤ stop ∨ x ∈ iterator.
Proof.
  revert start stop.
  induction iterator as [|identifier iterator IH];
    intros start stop Hle [Hs Hlt]%StronglySorted_inv; simpl.
  - split.
    + split; repeat constructor. done.
    + intros x. rewrite covers_cons, covers_nil_iff, elem_of_nil.
      unfold in_range. simpl. tauto.
  - apply Forall_cons in Hlt as [Hlt1 Hlt].
    case_decide as Hnext.
    + destruct (IH start identifier) as [Hcan Hcov]; [lia|done|].
      split; [done|]. intros x. rewrite Hcov, elem_of_cons.
      subst identifier. intuition lia.
    + rewrite extract_loop_acc. simpl.
      destruct (IH identifier identifier) as [Hcan Hcov]; [lia|done|].
      split.
      * destruct Hcan as [Hwf Hss]. split; constructor; try done.
        apply Forall_forall. intros r Hr.
        rewrite Forall_forall in Hwf. pose proof (Hwf _ Hr) as Hwr.
        assert (Hc : covers (extract_loop [] identifier identifier iterator) r.1).
        { exists r. split; [done|]. unfold in_range, wf_range in *. lia. }
        apply Hcov in Hc. unfold gap_before. simpl.
        destruct Hc as [?|Hin]; [lia|].
        apply StronglySorted_inv in Hs as [_ Hgt].
        rewrite Forall_forall in Hgt. specialize (Hgt _ Hin). lia.
      * intros x. rewrite covers_cons, Hcov, elem_of_cons.
        unfold in_range. simpl. intuition lia.
Qed.

(** C7. From an iterator that yields identifiers in strictly ascending
    order, [domain_iterator_to_identifier_ranges] returns a canonical range
    list covering exactly the identifiers yielded; the identifiers
    1,2,3,55,66..70 give [[1,3],[55,55],[66,70]], and an iterator that
    yields nothing gives the empty list. *)
Theorem domain_iterator_to_identifier_ranges_correct :
  (∀ iterator : list Z,
     StronglySorted Z.lt iterator →
     canonical (domain_iterator_to_identifier_ranges iterator)
     ∧ ∀ x, covers (domain_iterator_to_identifier_ranges iterator) x
            ↔ x ∈ iterator)
  ∧ domain_iterator_to_identifier_ranges [1; 2; 3; 55; 66; 67; 68; 69; 70]
    = [(1, 3); (55, 55); (66, 70)]
  ∧ domain_iterator_to_identifier_ranges [] = [].
Proof.
  split; [|split; reflexivity].
  intros [|identifier iterator] Hs; simpl.
  - split; [apply canonical_nil|]. intros x.
    by rewrite covers_nil_iff, elem_of_nil.
  - destruct (extract_loop_spec identifier identifier iterator) as [Hcan Hcov];
      [lia|done|].
    split; [done|]. intros x. rewrite Hcov, elem_of_cons. intuition lia.
Qed.

Lemma domain_iterator_to_identifier_ranges_witness :
  let iterator := [2; 3; 4; 9; 11; 12] in
  StronglySorted Z.lt iterator
  ∧ domain_iterator_to_identifier_ranges iterator = [(2, 4); (9, 9); (11, 12)]
  ∧ canonical (domain_iterator_to_identifier_ranges iterator)
  ∧ ∀ x, covers (domain_iterator_to_identifier_ranges iterator) x
         ↔ x ∈ iterator.
Proof.
  assert (Hs : StronglySorted Z.lt [2; 3; 4; 9; 11; 12]).
  { repeat constructor; lia. }
  split; [exact Hs|]. split; [reflexivity|].
  exact (proj1 domain_iterator_to_identifier_ranges_correct _ Hs).
Defined.

End extraction.

(** ** Characters, [int()] and [str()] *)

Section text.

Implicit Types (c : ascii) (s t : str).

Lemma is_decimal_isdigit c : is_decimal c → isdigit c = true.
Proof.
  unfold is_decimal, isdigit. intros Hc. cbn zeta.
  by rewrite (bool_decide_eq_true_2 _ Hc).
Qed.

Lemma is_decimal_not_space c : is_decimal c → isspace c = false.
Proof.
  unfold is_decimal, isspace. intros Hc. cbn zeta.
  rewrite !orb_false_iff. repeat split; apply bool_decide_eq_false_2; lia.
Qed.

Lemma is_decimal_not_comma c : is_decimal c → c ≠ ","%char.
Proof. intros Hc ->. unfold is_decimal in Hc. simpl in Hc. lia. Qed.

Lemma is_decimal_not_hyphen c : is_decimal c → c ≠ "-"%char.
Proof. intros Hc ->. unfold is_decimal in Hc. simpl in Hc. lia. Qed.

Lemma digit_value_Some c d :
  digit_value c = Some d ↔ is_decimal c ∧ d = Z.of_N (N_of_ascii c) - 48.
Proof.
  unfold digit_value, is_decimal. cbn zeta. case_decide.
  - split; [intros [= <-]; done | intros [_ ->]; done].
  - split; [done | tauto].
Qed.

Lemma digit_value_None c : digit_value c = None ↔ ¬ is_decimal c.
Proof.
  unfold digit_value, is_decimal. cbn zeta. case_decide.
  - split; [done | intros Hn; by destruct Hn].
  - done.
Qed.

Lemma int_digits_nonneg acc s n :
  0 ≤ acc → int_digits acc s = Some n → 0 ≤ n.
Proof.
  revert acc. induction s as [|c s IH]; intros acc Hacc; simpl.
  - intros [= <-]. done.
  - destruct (digit_value c) as [d|] eqn:Hd; [|done]. simpl.
    apply digit_value_Some in Hd as [Hc ->]. unfold is_decimal in Hc.
    apply IH. lia.
Qed.

Lemma int_digits_is_Some acc s :
  is_Some (int_digits acc s) ↔ Forall is_decimal s.
Proof.
  revert acc. induction s as [|c s IH]; intros acc; simpl.
  - split; [constructor | eauto].
  - rewrite Forall_cons. destruct (digit_value c) as [d|] eqn:Hd; simpl.
    + rewrite IH. apply digit_value_Some in Hd as [Hc _]. tauto.
    + apply digit_value_None in Hd. split; [by intros [? [=]] | tauto].
Qed.

(** [int()] never returns a negative number on the parser's strings. *)
Lemma py_int_nonneg s n : py_int s = Some n → 0 ≤ n.
Proof. destruct s; [done|]. by apply int_digits_nonneg. Qed.

(** [int()] raises exactly on the empty string and on a string with a
    character that is not a decimal digit. *)
Lemma py_int_None s : py_int s = None ↔ s = [] ∨ ¬ Forall is_decimal s.
Proof.
  destruct s as [|c s]; [split; [by left | done]|]. unfold py_int.
  rewrite <- (int_digits_is_Some 0), <- eq_None_not_Some.
  split; [by right | by intros [?|?]].
Qed.

Lemma drop_while_false {A} (p : A → bool) (l : list A) :
  Forall (λ x, p x = false) l → drop_while p l = l.
Proof. destruct 1 as [|x l Hx _]; simpl; [done | by rewrite Hx]. Qed.

Lemma take_while_true {A} (p : A → bool) (l : list A) :
  Forall (λ x, p x = true) l → take_while p l = l.
Proof. induction 1 as [|x l Hx _ IH]; simpl; [done | by rewrite Hx, IH]. Qed.

Lemma take_while_Forall {A} (p : A → bool) (l : list A) :
  Forall (λ x, p x = true) (take_while p l).
Proof.
  induction l as [|x l IH]; simpl; [constructor|].
  destruct (p x) eqn:Hx; by constructor.
Qed.

(** What the cleanup passes to [int()] is made of [isdigit] characters
    only. *)
Lemma clean_endpoint_isdigit s :
  Forall (λ c, isdigit c = true) (clean_endpoint s).
Proof. apply take_while_Forall. Qed.

(** The cleanup leaves a string of decimal digits as it is. *)
Lemma clean_endpoint_decimal s : Forall is_decimal s → clean_endpoint s = s.
Proof.
  intros Hs. unfold clean_endpoint, strip.
  assert (Hsp : Forall (λ c, isspace c = false) s).
  { eapply Forall_impl; [exact Hs | apply is_decimal_not_space]. }
  rewrite (drop_while_false _ s Hsp).
  rewrite drop_while_false by (by apply Forall_reverse).
  rewrite reverse_involutive. apply take_while_true.
  eapply Forall_impl; [exact Hs | apply is_decimal_isdigit].
Qed.

Lemma pretty_N_char_decimal (n : N) :
  (n < 10)%N →
  is_decimal (pretty_N_char n) ∧ digit_value (pretty_N_char n) = Some (Z.of_N n).
Proof.
  intros Hn.
  assert (n = 0 ∨ n = 1 ∨ n = 2 ∨ n = 3 ∨ n = 4 ∨ n = 5 ∨ n = 6 ∨ n = 7
          ∨ n = 8 ∨ n = 9)%N as Hcases by lia.
  unfold is_decimal.
  repeat (destruct Hcases as [->|Hcases]; [split; [simpl; lia | reflexivity]|]).
  subst n. split; [simpl; lia | reflexivity].
Qed.

(** The digits [pretty_N_go] puts in front of [s] read back as [x]. *)
Lemma pretty_N_go_digits (x : N) (s : string) :
  ∃ ds : str,
    list_ascii_of_string (pretty_N_go x s) = ds ++ list_ascii_of_string s
    ∧ Forall is_decimal ds
    ∧ ((0 < x)%N → ds ≠ [])
    ∧ ∀ t, int_digits 0 (ds ++ t) = int_digits (Z.of_N x) t.
Proof.
  revert s. induction (N.lt_wf_0 x) as [x _ IH]; intros s.
  destruct (decide (x = 0%N)) as [->|Hx].
  - exists []. rewrite pretty_N_go_0. repeat split; [constructor | lia].
  - rewrite pretty_N_go_step by lia.
    destruct (IH (x `div` 10)%N) with (s := String (pretty_N_char (x `mod` 10)) s)
      as (ds & Heq & Hds & _ & Hint).
    { apply N.div_lt; lia. }
    destruct (pretty_N_char_decimal (x `mod` 10)) as [Hc Hv].
    { apply N.mod_lt. lia. }
    exists (ds ++ [pretty_N_char (x `mod` 10)]). repeat split.
    + rewrite Heq. simpl. by rewrite <- app_assoc.
    + apply Forall_app. split; [done | by constructor].
    + intros _. by destruct ds.
    + intros t. rewrite <- app_assoc. simpl. rewrite Hint. simpl.
      rewrite Hv. simpl. f_equal.
      rewrite (N.div_mod x 10) at 3 by lia. lia.
Qed.

(** [str(z)] of a non-negative integer is a non-empty string of decimal
    digits that [int()] reads back as [z]. *)
Lemma py_str_decimal (z : Z) :
  0 ≤ z →
  Forall is_decimal (py_str z) ∧ py_str z ≠ [] ∧ py_int (py_str z) = Some z.
Proof.
  intros Hz. destruct z as [|p|p]; [|clear Hz|lia].
  - split; [|split; [done | reflexivity]].
    constructor; [|constructor]. unfold is_decimal. simpl. lia.
  - unfold py_str.
    change (pretty (Z.pos p)) with (pretty_N_go (N.pos p) "").
    destruct (pretty_N_go_digits (N.pos p) "") as (ds & -> & Hds & Hne & Hint).
    simpl. rewrite app_nil_r. specialize (Hne ltac:(lia)).
    repeat split; [done..|].
    destruct ds as [|c ds]; [done|]. unfold py_int.
    specialize (Hint []). rewrite app_nil_r in Hint. by rewrite Hint.
Qed.

(** [split] on a separator that does not occur. *)
Lemma py_split_absent (sep : ascii) s : sep ∉ s → py_split sep s = [s].
Proof.
  induction s as [|c s IH]; [done|].
  intros [Hc Hs]%not_elem_of_cons. simpl.
  rewrite decide_False by done. by rewrite IH.
Qed.

Lemma py_split_app (sep : ascii) s t :
  sep ∉ s → py_split sep (s ++ sep :: t) = s :: py_split sep t.
Proof.
  induction s as [|c s IH]; simpl.
  - intros _. by rewrite decide_True.
  - intros [Hc Hs]%not_elem_of_cons.
    rewrite decide_False by done. by rewrite IH.
Qed.

Lemma py_split_nonempty (sep : ascii) s : py_split sep s ≠ [].
Proof.
  destruct s as [|c s]; simpl; [done|].
  case_decide; [done|]. by destruct (py_split sep s).
Qed.

End text.

(** ** Parsing *)

Section parsing.

Implicit Types (s token e : str) (tokens : list str) (r : Z * Z).

Lemma collect_loop_omap (acc : list (Z * Z)) tokens :
  foldl (λ identifier_ranges token,
           match parse_identifier_range token with
           | Some r => identifier_ranges ++ [r]
           | None => identifier_ranges
           end) acc tokens
  = acc ++ omap parse_identifier_range tokens.
Proof.
  revert acc. induction tokens as [|token tokens IH]; intros acc; simpl.
  - by rewrite app_nil_r.
  - rewrite IH. destruct (parse_identifier_range token); [|done].
    by rewrite <- app_assoc.
Qed.

(** The [for] loop collects the ranges of the tokens that parse, in order,
    and skips the others. *)
Lemma collect_identifier_ranges_omap tokens :
  collect_identifier_ranges tokens = omap parse_identifier_range tokens.
Proof. apply collect_loop_omap. Qed.

Lemma collect_identifier_ranges_app tokens1 tokens2 :
  collect_identifier_ranges (tokens1 ++ tokens2)
  = collect_identifier_ranges tokens1 ++ collect_identifier_ranges tokens2.
Proof. rewrite !collect_identifier_ranges_omap. apply omap_app. Qed.

Lemma collect_identifier_ranges_cons token tokens :
  collect_identifier_ranges (token :: tokens)
  = match parse_identifier_range token with
    | Some r => r :: collect_identifier_ranges tokens
    | None => collect_identifier_ranges tokens
    end.
Proof. by rewrite !collect_identifier_ranges_omap. Qed.

(** A token with a single endpoint. *)
Lemma parse_identifier_range_single token e n :
  py_split "-" token = [e] → py_int (clean_endpoint e) = Some n →
  parse_identifier_range token = Some (n, n).
Proof.
  intros Hsplit Hint. unfold parse_identifier_range.
  rewrite Hsplit. simpl. rewrite Hint. done.
Qed.

(** A token with two endpoints (or more: the others are ignored). *)
Lemma parse_identifier_range_pair token e0 e1 ends a b :
  py_split "-" token = e0 :: e1 :: ends →
  py_int (clean_endpoint e0) = Some a → py_int (clean_endpoint e1) = Some b →
  parse_identifier_range token = Some (Z.min a b, Z.max a b).
Proof.
  intros Hsplit Ha Hb. unfold parse_identifier_range.
  rewrite Hsplit. simpl. rewrite Ha. simpl. rewrite Hb. simpl.
  case_decide; f_equal; f_equal; lia.
Qed.

(** When the [try] block raises. *)
Lemma parse_identifier_range_None token :
  parse_identifier_range token = None
  ↔ ∃ e, e ∈ take 2 (py_split "-" token) ∧ py_int (clean_endpoint e) = None.
Proof.
  unfold parse_identifier_range.
  pose proof (py_split_nonempty "-" token) as Hne.
  destruct (py_split "-" token) as [|e0 [|e1 ends]]; [done| |]; simpl.
  - destruct (py_int (clean_endpoint e0)) eqn:H0; simpl.
    + split; [done|]. intros (e & ->%list_elem_of_singleton & He). congruence.
    + split; [|done]. intros _. exists e0. split; [left | done].
  - destruct (py_int (clean_endpoint e0)) eqn:H0; simpl.
    + destruct (py_int (clean_endpoint e1)) eqn:H1; simpl.
      * split; [by case_decide|].
        intros (e & [->|He]%elem_of_cons & Hint); [congruence|].
        apply list_elem_of_singleton in He as ->. congruence.
      * split; [|done]. intros _. exists e1. split; [right; left | done].
    + split; [|done]. intros _. exists e0. split; [left | done].
Qed.

(** Every range the [try] block appends is well formed and not negative. *)
Lemma parse_identifier_range_Some token r :
  parse_identifier_range token = Some r → 0 ≤ r.1 ≤ r.2.
Proof.
  unfold parse_identifier_range.
  destruct (clean_endpoint <$> py_split "-" token) as [|e0 ends]; [done|].
  simpl. destruct (py_int e0) as [a|] eqn:Ha; [|done]. simpl.
  apply py_int_nonneg in Ha. case_decide.
  - intros [= <-]. simpl. lia.
  - destruct ends as [|e1 ends]; [done|]. simpl.
    destruct (py_int e1) as [b|] eqn:Hb; [|done]. simpl.
    apply py_int_nonneg in Hb. case_decide; intros [= <-]; simpl; lia.
Qed.

Lemma collect_identifier_ranges_wf tokens :
  Forall (λ r, 0 ≤ r.1 ≤ r.2) (collect_identifier_ranges tokens).
Proof.
  rewrite collect_identifier_ranges_omap. apply Forall_forall.
  intros r (token & _ & Hr)%list_elem_of_omap.
  by apply parse_identifier_range_Some in Hr.
Qed.

(** A token that starts with a hyphen has an empty first endpoint. *)
Lemma parse_identifier_range_hyphen token :
  parse_identifier_range ("-"%char :: token) = None.
Proof.
  apply parse_identifier_range_None. exists []. split; [|done].
  simpl. left.
Qed.

Lemma identifier_ranges_from_string_canonical s :
  canonical (identifier_ranges_from_string s).
Proof.
  apply identifier_ranges_fix_spec.
  eapply Forall_impl; [apply collect_identifier_ranges_wf|].
  intros r Hr. simpl in Hr. unfold wf_range. lia.
Qed.

Lemma identifier_ranges_from_string_nonneg s :
  Forall (λ r, 0 ≤ r.1 ≤ r.2) (identifier_ranges_from_string s).
Proof.
  apply Forall_forall. intros r Hr. cbn beta.
  pose proof (identifier_ranges_from_string_canonical s) as [Hwf _].
  rewrite Forall_forall in Hwf. specialize (Hwf _ Hr). split; [|exact Hwf].
  apply identifier_ranges_fix_endpoints in Hr as [Hr _].
  apply list_elem_of_fmap in Hr as (r' & -> & Hr').
  pose proof (collect_identifier_ranges_wf (py_split "," s)) as Hraw.
  rewrite Forall_forall in Hraw. apply Hraw in Hr'. apply Hr'.
Qed.

(** A token that raises leaves no trace in the result. *)
Lemma identifier_ranges_from_string_drop s pre token post :
  py_split "," s = pre ++ token :: post →
  parse_identifier_range token = None →
  identifier_ranges_from_string s
  = identifier_ranges_fix (collect_identifier_ranges (pre ++ post)).
Proof.
  intros Hs Htok. unfold identifier_ranges_from_string.
  rewrite Hs, !collect_identifier_ranges_app, collect_identifier_ranges_cons.
  by rewrite Htok.
Qed.

(** The identifiers of a parse result are those of the ranges of the
    tokens that parse. *)
Lemma identifier_ranges_from_string_covers s x :
  covers (identifier_ranges_from_string s) x
  ↔ ∃ token r, token ∈ py_split "," s
               ∧ parse_identifier_range token = Some r ∧ in_range r x.
Proof.
  unfold identifier_ranges_from_string.
  destruct (identifier_ranges_fix_spec
              (collect_identifier_ranges (py_split "," s))) as [_ Hcov].
  { eapply Forall_impl; [apply collect_identifier_ranges_wf|].
    intros r Hr. simpl in Hr. unfold wf_range. lia. }
  rewrite Hcov, collect_identifier_ranges_omap. unfold covers. split.
  - intros (r & (token & Htok & Hr)%list_elem_of_omap & Hx). eauto.
  - intros (token & r & Htok & Hr & Hx). exists r. split; [|done].
    apply list_elem_of_omap. eauto.
Qed.

Lemma strongly_sorted_lookup {A} (R : relation A) (l : list A) i1 i2 x1 x2 :
  StronglySorted R l → l !! i1 = Some x1 → l !! i2 = Some x2 →
  (i1 < i2)%nat → R x1 x2.
Proof.
  intros Hss. revert i1 i2.
  induction Hss as [|a l _ IH Ha]; intros i1 i2 H1 H2 Hlt; [done|].
  destruct i2 as [|i2]; [lia|]. simpl in H2.
  destruct i1 as [|i1]; simpl in H1.
  - injection H1 as <-. rewrite Forall_forall in Ha.
    by eapply Ha, list_elem_of_lookup_2.
  - apply (IH i1 i2); [done..|lia].
Qed.

(** A range all of whose integers a canonical list covers lies inside one
    range of the list. *)
Lemma canonical_covers_range (l : list (Z * Z)) r :
  canonical l → wf_range r → (∀ x, in_range r x → covers l x) →
  ∃ r', r' ∈ l ∧ r'.1 ≤ r.1 ∧ r.2 ≤ r'.2.
Proof.
  intros [Hwf Hss] Hr Hcov.
  destruct (Hcov r.1) as (r1 & Hr1 & Hx1); [unfold in_range, wf_range in *; lia|].
  exists r1. split; [done|]. unfold in_range in Hx1. split; [lia|].
  destruct (decide (r.2 ≤ r1.2)) as [|Hlt]; [done|]. exfalso.
  destruct (Hcov (r1.2 + 1)) as (r2 & Hr2 & Hx2); [unfold in_range; lia|].
  unfold in_range in Hx2.
  rewrite Forall_forall in Hwf.
  pose proof (Hwf _ Hr1) as Hw1. pose proof (Hwf _ Hr2) as Hw2.
  unfold wf_range in Hw1, Hw2.
  apply list_elem_of_lookup in Hr1 as [i1 Hi1].
  apply list_elem_of_lookup in Hr2 as [i2 Hi2].
  destruct (decide (i1 = i2)) as [->|Hne].
  { rewrite Hi1 in Hi2. injection Hi2 as <-. lia. }
  destruct (decide (i1 < i2)%nat) as [Hlt12|Hge].
  - pose proof (strongly_sorted_lookup _ _ _ _ _ _ Hss Hi1 Hi2 Hlt12) as Hgap.
    unfold gap_before in Hgap. lia.
  - assert (Hlt21 : (i2 < i1)%nat) by lia.
    pose proof (strongly_sorted_lookup _ _ _ _ _ _ Hss Hi2 Hi1 Hlt21) as Hgap.
    unfold gap_before in Hgap. lia.
Qed.

End parsing.

(** ** Parsing: the claims *)

Section parsing_claims.

Implicit Types (s token e : str) (r : Z * Z).

(** C4, as stated, fails on ["1,2"]: both tokens have one numeric endpoint,
    and the parse result is the merged range [[1,2]], in which neither
    [[1,1]] nor [[2,2]] occurs. *)
Lemma single_endpoint_counterexample :
  py_split "," (list_ascii_of_string "1,2")
  = [list_ascii_of_string "1"; list_ascii_of_string "2"]
  ∧ py_split "-" (list_ascii_of_string "1") = [list_ascii_of_string "1"]
  ∧ py_int (clean_endpoint (list_ascii_of_string "1")) = Some 1
  ∧ identifier_ranges_from_string (list_ascii_of_string "1,2") = [(1, 2)]
  ∧ (1, 1) ∉ identifier_ranges_from_string (list_ascii_of_string "1,2").
Proof.
  do 4 (split; [reflexivity|]).
  change (identifier_ranges_from_string (list_ascii_of_string "1,2"))
    with [(1, 2)].
  intros [=]%list_elem_of_singleton.
Qed.

(** C4, amended. A token with a single endpoint (no hyphen) whose cleaned
    endpoint [int()] reads as [n] is appended as the range [[n, n]] to the
    list collected before normalisation; in the parse result [n] is
    covered, and the result is exactly [[[n, n]]] when no other token
    contributes a range. *)
Theorem single_endpoint_token s (pre post : list str) token e n :
  py_split "," s = pre ++ token :: post →
  py_split "-" token = [e] →
  py_int (clean_endpoint e) = Some n →
  parse_identifier_range token = Some (n, n)
  ∧ collect_identifier_ranges (py_split "," s)
    = collect_identifier_ranges pre ++ (n, n) :: collect_identifier_ranges post
  ∧ covers (identifier_ranges_from_string s) n
  ∧ (collect_identifier_ranges pre = [] → collect_identifier_ranges post = [] →
     identifier_ranges_from_string s = [(n, n)]).
Proof.
  intros Hs Hsplit Hint.
  pose proof (parse_identifier_range_single token e n Hsplit Hint) as Htok.
  assert (Hraw : collect_identifier_ranges (py_split "," s)
                 = collect_identifier_ranges pre
                   ++ (n, n) :: collect_identifier_ranges post).
  { by rewrite Hs, collect_identifier_ranges_app,
      collect_identifier_ranges_cons, Htok. }
  split; [done|]. split; [done|]. split.
  - unfold identifier_ranges_from_string.
    apply identifier_ranges_fix_spec.
    + eapply Forall_impl; [apply collect_identifier_ranges_wf|].
      intros r Hr. simpl in Hr. unfold wf_range. lia.
    + rewrite Hraw. apply covers_app. right. apply covers_cons. left.
      unfold in_range. simpl. lia.
  - intros Hpre Hpost. unfold identifier_ranges_from_string.
    rewrite Hraw, Hpre, Hpost. simpl.
    apply identifier_ranges_fix_canonical.
    split; repeat constructor. unfold wf_range. simpl. lia.
Qed.

Lemma single_endpoint_token_witness :
  let s := list_ascii_of_string "x, 55 ,7-" in
  let token := list_ascii_of_string " 55 " in
  py_split "," s = [list_ascii_of_string "x"] ++ token :: [list_ascii_of_string "7-"]
  ∧ py_split "-" token = [token]
  ∧ py_int (clean_endpoint token) = Some 55
  ∧ parse_identifier_range token = Some (55, 55)
  ∧ covers (identifier_ranges_from_string s) 55
  ∧ identifier_ranges_from_string s = [(55, 55)].
Proof.
  pose proof (single_endpoint_token (list_ascii_of_string "x, 55 ,7-")
                [list_ascii_of_string "x"] [list_ascii_of_string "7-"]
                (list_ascii_of_string " 55 ") (list_ascii_of_string " 55 ") 55
                eq_refl eq_refl eq_refl) as (H1 & _ & H3 & H4).
  do 3 (split; [reflexivity|]).
  split; [exact H1|]. split; [exact H3|]. apply H4; reflexivity.
Defined.

(** C9. Parsing is total: it returns a list for every string, no error
    reaches the caller. A token whose [try] block raises (an endpoint among
    the first two that is empty or not made of decimal digits after
    cleanup) adds nothing, and the other tokens are parsed as if it were not
    there. The tokens that parse are returned: an integer is covered by the
    result exactly when it lies in the range of a token that parses, and
    the range of every such token lies inside one range of the result. The
    result is canonical, and it is the normalisation of the ranges of the
    tokens that parse, in order. *)
Theorem identifier_ranges_from_string_drops_bad_tokens s :
  identifier_ranges_from_string s
  = identifier_ranges_fix (omap parse_identifier_range (py_split "," s))
  ∧ canonical (identifier_ranges_from_string s)
  ∧ (∀ x, covers (identifier_ranges_from_string s) x
          ↔ ∃ token r, token ∈ py_split "," s
                       ∧ parse_identifier_range token = Some r ∧ in_range r x)
  ∧ (∀ token r, token ∈ py_split "," s →
       parse_identifier_range token = Some r →
       ∃ r', r' ∈ identifier_ranges_from_string s ∧ r'.1 ≤ r.1 ∧ r.2 ≤ r'.2)
  ∧ (∀ (pre post : list str) token,
       py_split "," s = pre ++ token :: post →
       parse_identifier_range token = None →
       identifier_ranges_from_string s
       = identifier_ranges_fix (omap parse_identifier_range (pre ++ post)))
  ∧ (∀ token,
       parse_identifier_range token = None
       ↔ ∃ e, e ∈ take 2 (py_split "-" token)
              ∧ (clean_endpoint e = [] ∨ ¬ Forall is_decimal (clean_endpoint e))).
Proof.
  split; [|split; [|split; [|split; [|split]]]].
  - unfold identifier_ranges_from_string.
    by rewrite collect_identifier_ranges_omap.
  - apply identifier_ranges_from_string_canonical.
  - apply identifier_ranges_from_string_covers.
  - intros token r Htok Hr.
    apply canonical_covers_range.
    + apply identifier_ranges_from_string_canonical.
    + apply parse_identifier_range_Some in Hr. unfold wf_range. lia.
    + intros x Hx. apply identifier_ranges_from_string_covers. eauto.
  - intros pre post token Hs Htok.
    rewrite <- collect_identifier_ranges_omap.
    by apply (identifier_ranges_from_string_drop s pre token post).
  - intros token. rewrite parse_identifier_range_None.
    by setoid_rewrite py_int_None.
Qed.

(** C10. Every range of a parse result has [0 <= start <= stop], and the
    result is canonical: ascending, no two ranges overlapping or adjacent.
    A token that begins with a hyphen has an empty first endpoint, so its
    [try] block raises and it contributes no range. *)
Theorem identifier_ranges_from_string_invariant s :
  Forall (λ r, 0 ≤ r.1 ≤ r.2) (identifier_ranges_from_string s)
  ∧ canonical (identifier_ranges_from_string s)
  ∧ (∀ token, parse_identifier_range ("-"%char :: token) = None)
  ∧ (∀ (pre post : list str) token,
       py_split "," s = pre ++ ("-"%char :: token) :: post →
       identifier_ranges_from_string s
       = identifier_ranges_fix (collect_identifier_ranges (pre ++ post))).
Proof.
  split; [apply identifier_ranges_from_string_nonneg|].
  split; [apply identifier_ranges_from_string_canonical|].
  split; [apply parse_identifier_range_hyphen|].
  intros pre post token Hs.
  apply (identifier_ranges_from_string_drop s pre _ post Hs).
  apply parse_identifier_range_hyphen.
Qed.

End parsing_claims.

(** ** Printing and the round trip *)

Section round_trip.

Implicit Types (r : Z * Z) (rs : list (Z * Z)).

Lemma format_loop_spec (acc : str) rs :
  (foldl (λ '(identifier_ranges_string, first) identifier_range,
            let identifier_range_string :=
              identifier_range_to_string identifier_range in
            if first : bool then (identifier_range_string, false)
            else (identifier_ranges_string ++ [","%char]
                    ++ identifier_range_string, false))
     (acc, false) rs).1
  = acc ++ concat ((λ r, ","%char :: identifier_range_to_string r) <$> rs).
Proof.
  revert acc. induction rs as [|r rs IH]; intros acc; simpl.
  - by rewrite app_nil_r.
  - rewrite IH. by rewrite <- app_assoc.
Qed.

(** The printed list: the ranges in order, a comma between neighbours. *)
Lemma identifier_ranges_to_string_cons r rs :
  identifier_ranges_to_string (r :: rs)
  = identifier_range_to_string r
    ++ concat ((λ r, ","%char :: identifier_range_to_string r) <$> rs).
Proof. unfold identifier_ranges_to_string. simpl. apply format_loop_spec. Qed.

Lemma decimal_no_comma (s : str) : Forall is_decimal s → ","%char ∉ s.
Proof.
  intros Hs Hin. rewrite Forall_forall in Hs.
  by apply (is_decimal_not_comma _ (Hs _ Hin)).
Qed.

Lemma decimal_no_hyphen (s : str) : Forall is_decimal s → "-"%char ∉ s.
Proof.
  intros Hs Hin. rewrite Forall_forall in Hs.
  by apply (is_decimal_not_hyphen _ (Hs _ Hin)).
Qed.

Lemma identifier_range_to_string_no_comma r :
  0 ≤ r.1 → 0 ≤ r.2 → ","%char ∉ identifier_range_to_string r.
Proof.
  intros H1 H2. unfold identifier_range_to_string.
  destruct (py_str_decimal _ H1) as (Hd1 & _ & _).
  destruct (py_str_decimal _ H2) as (Hd2 & _ & _).
  case_decide; [by apply decimal_no_comma|].
  rewrite !elem_of_app, list_elem_of_singleton.
  intros [Hin|[Hin|Hin]];
    [by apply (decimal_no_comma _ Hd1) | discriminate
    | by apply (decimal_no_comma _ Hd2)].
Qed.

(** One printed range parses back to itself. *)
Lemma parse_identifier_range_to_string r :
  0 ≤ r.1 → r.1 ≤ r.2 →
  parse_identifier_range (identifier_range_to_string r) = Some r.
Proof.
  destruct r as [a b]. simpl. intros Ha Hab.
  destruct (py_str_decimal a Ha) as (Hda & _ & Hia).
  destruct (py_str_decimal b ltac:(lia)) as (Hdb & _ & Hib).
  unfold identifier_range_to_string. simpl. case_decide as Heq.
  - subst b.
    apply (parse_identifier_range_single _ (py_str a)).
    + by apply py_split_absent, decimal_no_hyphen.
    + by rewrite clean_endpoint_decimal.
  - rewrite (parse_identifier_range_pair _ (py_str a) (py_str b) [] a b).
    + f_equal. f_equal; lia.
    + rewrite py_split_app by (by apply decimal_no_hyphen).
      by rewrite py_split_absent by (by apply decimal_no_hyphen).
    + by rewrite clean_endpoint_decimal.
    + by rewrite clean_endpoint_decimal.
Qed.

(** Splitting the printed list at the commas gives back the printed
    ranges. *)
Lemma py_split_identifier_ranges_to_string r rs :
  Forall (λ r, 0 ≤ r.1 ∧ 0 ≤ r.2) (r :: rs) →
  py_split "," (identifier_ranges_to_string (r :: rs))
  = identifier_range_to_string <$> (r :: rs).
Proof.
  rewrite identifier_ranges_to_string_cons.
  revert r. induction rs as [|r' rs IH]; intros r [[Hr1 Hr2] Hrs]%Forall_cons.
  - simpl. rewrite app_nil_r.
    by rewrite py_split_absent by (by apply identifier_range_to_string_no_comma).
  - simpl. rewrite py_split_app by (by apply identifier_range_to_string_no_comma).
    f_equal. by apply IH.
Qed.

Lemma parse_identifier_ranges_to_string rs :
  canonical rs → Forall (λ r, 0 ≤ r.1) rs →
  identifier_ranges_from_string (identifier_ranges_to_string rs) = rs.
Proof.
  intros Hcan Hnn. pose proof Hcan as [Hwf _].
  assert (Hall : Forall (λ r, 0 ≤ r.1 ∧ r.1 ≤ r.2) rs).
  { apply Forall_forall. intros r Hr. rewrite Forall_forall in Hwf, Hnn.
    split; [by apply Hnn | by apply Hwf]. }
  unfold identifier_ranges_from_string.
  destruct rs as [|r rs]; [reflexivity|].
  rewrite py_split_identifier_ranges_to_string.
  2:{ eapply Forall_impl; [exact Hall|]. intros r' Hr'. simpl in Hr'. lia. }
  rewrite collect_identifier_ranges_omap.
  assert (Hraw : omap parse_identifier_range
                   (identifier_range_to_string <$> (r :: rs)) = r :: rs).
  { clear -Hall. induction Hall as [|r' rs' [H1 H2] _ IH]; [done|].
    cbn [fmap list_fmap omap list_omap].
    by rewrite parse_identifier_range_to_string, IH. }
  rewrite Hraw. by apply identifier_ranges_fix_canonical.
Qed.

(** C5. For a canonical range list [rs] (ascending, no two ranges
    overlapping or adjacent, each with [start <= stop]) with no negative
    start, parsing the printed list gives [rs] back. *)
Theorem identifier_ranges_round_trip (rs : list (Z * Z)) :
  canonical rs → Forall (λ r, 0 ≤ r.1) rs →
  identifier_ranges_from_string (identifier_ranges_to_string rs) = rs.
Proof. apply parse_identifier_ranges_to_string. Qed.

Lemma identifier_ranges_round_trip_witness :
  let rs := [(1, 30); (55, 55); (66, 70)] in
  canonical rs ∧ Forall (λ r, 0 ≤ r.1) rs
  ∧ identifier_ranges_to_string rs = list_ascii_of_string "1-30,55,66-70"
  ∧ identifier_ranges_from_string (identifier_ranges_to_string rs) = rs.
Proof.
  assert (Hcan : canonical [(1, 30); (55, 55); (66, 70)]).
  { split; repeat constructor; unfold wf_range, gap_before; simpl; lia. }
  assert (Hnn : Forall (λ r : Z * Z, 0 ≤ r.1) [(1, 30); (55, 55); (66, 70)]).
  { repeat constructor; simpl; lia. }
  split; [exact Hcan|]. split; [exact Hnn|]. split; [reflexivity|].
  exact (identifier_ranges_round_trip _ Hcan Hnn).
Defined.

End round_trip.

(** ** Renumbering: identifiers in use and the gap list *)

Section gaps.

Implicit Types (l nodes datapoints : list Z) (x a b : Z).

Lemma sorted_nodup_strict l :
  StronglySorted Z.le l → NoDup l → StronglySorted Z.lt l.
Proof.
  induction 1 as [|a l _ IH Ha]; [constructor|].
  intros [Hnin Hnd]%NoDup_cons. constructor.
  - by apply IH.
  - apply Forall_forall. intros b Hb. rewrite Forall_forall in Ha.
    specialize (Ha _ Hb). assert (a ≠ b) by (by intros ->). lia.
Qed.

(** [in_use_identifiers] holds the identifiers of both nodesets. *)
Lemma in_use_identifiers_elem nodes datapoints x :
  x ∈ in_use_identifiers nodes datapoints ↔ x ∈ datapoints ∨ x ∈ nodes.
Proof.
  unfold in_use_identifiers.
  rewrite merge_sort_Permutation, elem_of_elements, elem_of_list_to_set,
    elem_of_app.
  by rewrite !merge_sort_Permutation.
Qed.

(** It is strictly ascending. *)
Lemma in_use_identifiers_sorted nodes datapoints :
  StronglySorted Z.lt (in_use_identifiers nodes datapoints).
Proof.
  apply sorted_nodup_strict.
  - apply StronglySorted_merge_sort; apply _.
  - unfold in_use_identifiers. rewrite merge_sort_Permutation.
    apply NoDup_elements.
Qed.

Lemma sorted_last_max l mx x :
  StronglySorted Z.lt l → last l = Some mx → x ∈ l → x ≤ mx.
Proof.
  intros Hs [l' ->]%last_Some [Hx|Hx]%elem_of_app;
    [|apply list_elem_of_singleton in Hx as ->; lia].
  pose proof (StronglySorted_app_1_elem_of _ _ _ x mx Hs Hx) as Hlt.
  specialize (Hlt ltac:(left)). lia.
Qed.

Lemma filter_constant (P : Prop) `{!Decision P} l :
  filter (λ _ : Z, P) l = if decide P then l else [].
Proof.
  induction l as [|a l IH]; [by case_decide|].
  rewrite filter_cons, IH. by repeat case_decide.
Qed.

Lemma py_range_sorted a b : StronglySorted Z.lt (py_range a b).
Proof.
  unfold py_range.
  remember (Z.to_nat (b - a)) as n eqn:Hn. revert a Hn.
  induction n as [|n IH]; intros a Hn.
  - rewrite seqZ_nil by lia. constructor.
  - rewrite seqZ_cons by lia. constructor.
    + replace (Z.pred (b - a)) with (b - Z.succ a) by lia. apply IH. lia.
    + apply Forall_forall. intros x Hx%elem_of_seqZ. lia.
Qed.

Lemma py_range_elem a b x : x ∈ py_range a b ↔ a ≤ x < b.
Proof. unfold py_range. rewrite elem_of_seqZ. lia. Qed.

Lemma _find_missing_cons a b l :
  _find_missing (a :: b :: l)
  = filter (λ _, b - a > 1) (py_range (a + 1) b) ++ _find_missing (b :: l).
Proof. reflexivity. Qed.

(** The integers missing from a strictly ascending list, in order. *)
Lemma _find_missing_spec a l :
  StronglySorted Z.lt (a :: l) →
  StronglySorted Z.lt (_find_missing (a :: l))
  ∧ ∀ x, x ∈ _find_missing (a :: l)
         ↔ (x ∉ a :: l) ∧ a < x ∧ ∃ b, b ∈ l ∧ x < b.
Proof.
  revert a. induction l as [|b l IH]; intros a [Hs Ha]%StronglySorted_inv.
  - split; [constructor|]. intros x. split.
    + by intros ?%elem_of_nil.
    + intros (_ & _ & b' & ?%elem_of_nil & _). done.
  - destruct (IH b Hs) as [IHs IHx].
    apply Forall_cons in Ha as [Hab Ha].
    pose proof Hs as [_ Hb]%StronglySorted_inv.
    rewrite Forall_forall in Ha, Hb.
    rewrite _find_missing_cons, filter_constant.
    assert (Hfx : ∀ x, x ∈ (if decide (b - a > 1) then py_range (a + 1) b else [])
                       ↔ a < x < b).
    { intros x. case_decide.
      - rewrite py_range_elem. lia.
      - rewrite elem_of_nil. lia. }
    split.
    + apply StronglySorted_app_2; [|by case_decide; [apply py_range_sorted|constructor]|done].
      intros x1 x2 Hx1%Hfx Hx2%IHx. lia.
    + intros x. rewrite elem_of_app, Hfx, IHx, !not_elem_of_cons. split.
      * intros [Hx|(Hnin & Hbx & c & Hc & Hxc)].
        -- split; [|split; [lia|]].
           ++ split; [lia|]. split; [lia|]. intros Hin%Hb. lia.
           ++ exists b. split; [left | lia].
        -- split; [|split; [lia|]].
           ++ split; [lia | tauto].
           ++ exists c. split; [by right | done].
      * intros ((Hxa & Hxb & Hnin) & Hax & c & Hc & Hxc).
        destruct (decide (x < b)) as [?|?]; [left; lia|].
        right. split; [tauto|]. split; [lia|].
        apply elem_of_cons in Hc as [->|Hc]; [lia|]. eauto.
Qed.

(** The gap list of a non-empty, strictly ascending [in_use]: ascending,
    and made of the integers not in use that are at least 1 and below the
    smallest identifier in use, or between two identifiers in use. *)
Lemma initial_available_identifiers_spec l :
  StronglySorted Z.lt l → l ≠ [] →
  ∃ gaps, initial_available_identifiers l = Some gaps
    ∧ StronglySorted Z.lt gaps
    ∧ ∀ x, x ∈ gaps
           ↔ (x ∉ l) ∧ ((1 ≤ x ∧ ∀ y, y ∈ l → x < y)
                      ∨ ∃ a b, a ∈ l ∧ b ∈ l ∧ a < x < b).
Proof.
  intros Hs Hne. destruct l as [|first l]; [done|]. clear Hne.
  exists (py_range 1 first ++ _find_missing (first :: l)). split; [done|].
  destruct (_find_missing_spec first l Hs) as [Hms Hmx].
  pose proof Hs as [_ Hf]%StronglySorted_inv. rewrite Forall_forall in Hf.
  split.
  - apply StronglySorted_app_2; [|apply py_range_sorted|done].
    intros x1 x2 Hx1%py_range_elem Hx2%Hmx. lia.
  - intros x. rewrite elem_of_app, py_range_elem, Hmx, !not_elem_of_cons. split.
    + intros [Hx|((Hxf & Hnin) & Hfx & b & Hb & Hxb)].
      * assert (Hbelow : ∀ y, y ∈ (first :: l) → x < y).
        { intros y [->|Hy%Hf]%elem_of_cons; lia. }
        split; [|by left; split; [lia|]].
        split; [lia|]. intros Hin%Hf. lia.
      * split; [done|]. right. exists first, b.
        split; [left|]. split; [by right | lia].
    + intros ((Hxf & Hnin) & [[H1 Hbelow]|(a & b & Ha & Hb & Hax & Hxb)]).
      * left. specialize (Hbelow first ltac:(left)). lia.
      * right. split; [done|].
        assert (first ≤ a) by (apply elem_of_cons in Ha as [->|?%Hf]; lia).
        split; [lia|].
        apply elem_of_cons in Hb as [->|Hb]; [lia|]. eauto.
Qed.

End gaps.

(** ** Renumbering: the loop *)

Section remap_loop.

Implicit Types (st : remap_state) (c g v : Z) (A : gset Z).

Lemma existing_nodes_identifiers_set_elem (nodes : list Z) c :
  c ∈ existing_nodes_identifiers_set nodes ↔ c ∈ nodes.
Proof.
  unfold existing_nodes_identifiers_set.
  by rewrite elem_of_list_to_set, merge_sort_Permutation.
Qed.

(** The branch that pops the first available identifier. *)
Lemma remap_step_collide A st c g rest :
  c ∈ A → available_identifiers st = g :: rest →
  remap_step A st c
  = RemapState (<[c := g]> (identifier_map st)) rest (max_identifier st).
Proof.
  intros Hc Hav. unfold remap_step. rewrite Hav. by rewrite decide_True.
Qed.

(** The [else] branch: taken by a datapoint that does not collide, and by
    one that collides when no identifier is available. *)
Lemma remap_step_extend A st c :
  c ∉ A ∨ available_identifiers st = [] →
  remap_step A st c
  = RemapState (<[c := max_identifier st + 1]> (identifier_map st))
      (available_identifiers st) (max_identifier st + 1).
Proof.
  intros Hc. unfold remap_step.
  destruct (decide (c ∈ A)) as [Hin|Hnin]; [|done].
  destruct Hc as [?|Hav]; [done|]. by rewrite Hav.
Qed.

(** Every iteration records an identifier for its datapoint, and keeps the
    entries of the others. *)
Lemma remap_step_lookup A st c c' :
  c' ≠ c →
  identifier_map (remap_step A st c) !! c' = identifier_map st !! c'.
Proof.
  intros Hne. unfold remap_step.
  destruct (decide (c ∈ A)), (available_identifiers st); simpl;
    by rewrite lookup_insert_ne.
Qed.

Lemma remap_step_lookup_self A st c :
  is_Some (identifier_map (remap_step A st c) !! c).
Proof.
  unfold remap_step.
  destruct (decide (c ∈ A)), (available_identifiers st); simpl;
    rewrite lookup_insert_eq; eauto.
Qed.

Lemma remap_loop_lookup A st (candidates : list Z) c :
  c ∈ candidates ∨ is_Some (identifier_map st !! c) →
  is_Some (identifier_map (foldl (remap_step A) st candidates) !! c).
Proof.
  revert st. induction candidates as [|c' candidates IH]; intros st; simpl.
  - intros [?%elem_of_nil|?]; done.
  - intros Hc. apply IH.
    destruct (decide (c = c')) as [->|Hne].
    + right. apply remap_step_lookup_self.
    + rewrite remap_step_lookup by done.
      destruct Hc as [Hc|Hc]; [|by right].
      apply elem_of_cons in Hc as [?|?]; [done | by left].
Qed.


Lemma remap_step_inv in_use max0 A st c :
  (∀ x, x ∈ in_use → x ≤ max0) →
  remap_inv in_use max0 st → remap_inv in_use max0 (remap_step A st c).
Proof.
  intros Hmax [Hm Hs Hf Hv Hi].
  destruct (decide (c ∈ A ∧ available_identifiers st ≠ [])) as [[Hc Hav]|Hc].
  - destruct (available_identifiers st) as [|g rest] eqn:Hst; [done|].
    rewrite (remap_step_collide A st c g rest) by done.
    apply StronglySorted_inv in Hs as [Hs Hg]. rewrite Forall_forall in Hg.
    assert (Hgrest : g ∉ rest) by (intros ?%Hg; lia).
    destruct (Hf g ltac:(left)) as [Hgu Hgm].
    split; simpl.
    + done.
    + done.
    + intros g' Hg'. apply Hf. by right.
    + intros c' v [[-> <-]|[Hne Hl]]%lookup_insert_Some.
      * repeat split; [done..|lia].
      * destruct (Hv _ _ Hl) as (? & Hnin & ?).
        apply not_elem_of_cons in Hnin as [_ ?]. done.
    + intros c1 c2 v [[<- <-]|[Hne1 Hl1]]%lookup_insert_Some
        [[<- Heq]|[Hne2 Hl2]]%lookup_insert_Some; try done.
      * destruct (Hv _ _ Hl2) as (_ & Hnin & _).
        apply not_elem_of_cons in Hnin as [? _]. done.
      * subst v. destruct (Hv _ _ Hl1) as (_ & Hnin & _).
        apply not_elem_of_cons in Hnin as [? _]. done.
      * by eapply Hi.
  - rewrite remap_step_extend.
    2:{ destruct (decide (c ∈ A)); [right|by left].
        destruct (available_identifiers st); [done|]. destruct Hc. by split. }
    split; simpl.
    + lia.
    + done.
    + done.
    + intros c' v [[-> <-]|[Hne Hl]]%lookup_insert_Some.
      * repeat split; [| |lia].
        -- intros Hin%Hmax. lia.
        -- intros [_ ?]%Hf. lia.
      * destruct (Hv _ _ Hl) as (? & ? & ?). repeat split; [done..|lia].
    + intros c1 c2 v [[<- <-]|[Hne1 Hl1]]%lookup_insert_Some
        [[<- Heq]|[Hne2 Hl2]]%lookup_insert_Some; try done.
      * destruct (Hv _ _ Hl2) as (_ & _ & ?). lia.
      * subst v. destruct (Hv _ _ Hl1) as (_ & _ & ?). lia.
      * by eapply Hi.
Qed.

Lemma remap_loop_inv in_use max0 A st (candidates : list Z) :
  (∀ x, x ∈ in_use → x ≤ max0) →
  remap_inv in_use max0 st →
  remap_inv in_use max0 (foldl (remap_step A) st candidates).
Proof.
  intros Hmax. revert st.
  induction candidates as [|c candidates IH]; intros st Hinv; simpl; [done|].
  by apply IH, remap_step_inv.
Qed.

(** The state before the loop exists when one of the nodesets is not
    empty; its [max_identifier] is the largest identifier in use and its
    [available_identifiers] the gap list. *)
Lemma remap_init_spec (nodes datapoints : list Z) :
  datapoints ++ nodes ≠ [] →
  ∃ st0, remap_init nodes datapoints = Some st0
    ∧ identifier_map st0 = ∅
    ∧ initial_available_identifiers (in_use_identifiers nodes datapoints)
      = Some (available_identifiers st0)
    ∧ max_identifier st0 ∈ in_use_identifiers nodes datapoints
    ∧ (∀ x, x ∈ in_use_identifiers nodes datapoints → x ≤ max_identifier st0)
    ∧ remap_inv (in_use_identifiers nodes datapoints) (max_identifier st0) st0.
Proof.
  intros Hne. unfold remap_init. cbn zeta.
  pose proof (in_use_identifiers_sorted nodes datapoints) as Hs.
  assert (Hne' : in_use_identifiers nodes datapoints ≠ []).
  { destruct (datapoints ++ nodes) as [|x l] eqn:Hl; [done|].
    assert (x ∈ in_use_identifiers nodes datapoints) as Hx.
    { apply in_use_identifiers_elem, elem_of_app. rewrite Hl. left. }
    intros Hnil. rewrite Hnil in Hx. by apply elem_of_nil in Hx. }
  destruct (initial_available_identifiers_spec _ Hs Hne')
    as (gaps & Hgaps & Hgs & Hgx).
  destruct (last (in_use_identifiers nodes datapoints)) as [mx|] eqn:Hlast.
  2:{ by apply last_None in Hlast. }
  rewrite Hgaps. simpl. eexists. split; [done|]. simpl.
  assert (Hmax : ∀ x, x ∈ in_use_identifiers nodes datapoints → x ≤ mx).
  { intros x. by apply sorted_last_max. }
  assert (Hmx : mx ∈ in_use_identifiers nodes datapoints).
  { by apply last_Some_elem_of. }
  split; [done|]. split; [done|]. split; [exact Hmx|]. split; [exact Hmax|].
  split; simpl.
  - lia.
  - done.
  - intros g Hg. apply Hgx in Hg as [Hnin Hcase]. split; [done|].
    destruct Hcase as [[_ Hb]|(a & b & _ & Hb & ?)].
    + by apply Hb.
    + apply Hmax in Hb. lia.
  - intros c v Hl. by rewrite lookup_empty in Hl.
  - intros c1 c2 v Hl. by rewrite lookup_empty in Hl.
Qed.





End remap_loop.

(** ** Renumbering: the claims *)

Section remap_claims.

Implicit Types (nodes datapoints candidates : list Z) (c : Z).

(** The identifier map the loop leaves: an entry for every candidate, with
    values outside the identifiers in use and no value given twice. *)
Lemma compute_identifier_map_spec nodes datapoints candidates :
  datapoints ++ nodes ≠ [] →
  ∃ m, compute_identifier_map nodes datapoints candidates = Some m
    ∧ (∀ c, c ∈ candidates →
            ∃ v, m !! c = Some v ∧ final_identifier m c = v
                 ∧ v ∉ in_use_identifiers nodes datapoints)
    ∧ (∀ c1 c2 v, m !! c1 = Some v → m !! c2 = Some v → c1 = c2).
Proof.
  intros Hne.
  destruct (remap_init_spec nodes datapoints Hne)
    as (st0 & Hinit & _ & _ & _ & Hmax & Hinv).
  unfold compute_identifier_map, remap_run. rewrite Hinit. simpl.
  eexists. split; [done|].
  apply (remap_loop_inv _ _ (existing_nodes_identifiers_set nodes) _ candidates)
    in Hinv as [_ _ _ Hv Hi]; [|done].
  split; [|exact Hi].
  intros c Hc.
  destruct (remap_loop_lookup (existing_nodes_identifiers_set nodes)
              st0 candidates c) as [v Hl]; [by left|].
  exists v. split; [done|]. split.
  - unfold final_identifier. by rewrite Hl.
  - by destruct (Hv _ _ Hl) as (Hnin & _ & _).
Qed.

(** C2. Whenever the renumbering is computed (one of the nodesets is not
    empty), every candidate has an entry in the identifier map, its final
    identifier is not an identifier of the origin nodes, and two different
    candidates have different final identifiers. *)
Theorem identifier_map_unique_disjoint nodes datapoints candidates :
  datapoints ++ nodes ≠ [] →
  ∃ m, compute_identifier_map nodes datapoints candidates = Some m
    ∧ (∀ c, c ∈ candidates →
            is_Some (m !! c) ∧ final_identifier m c ∉ nodes)
    ∧ (∀ c1 c2, c1 ∈ candidates → c2 ∈ candidates →
                final_identifier m c1 = final_identifier m c2 → c1 = c2).
Proof.
  intros Hne.
  destruct (compute_identifier_map_spec nodes datapoints candidates Hne)
    as (m & Hm & Hval & Hinj).
  exists m. split; [done|]. split.
  - intros c Hc. destruct (Hval c Hc) as (v & Hl & -> & Hnin).
    split; [eauto|]. intros Hin. apply Hnin, in_use_identifiers_elem. by right.
  - intros c1 c2 Hc1 Hc2 Heq.
    destruct (Hval c1 Hc1) as (v1 & Hl1 & Hf1 & _).
    destruct (Hval c2 Hc2) as (v2 & Hl2 & Hf2 & _).
    apply (Hinj c1 c2 v1); [done|]. congruence.
Qed.

Lemma identifier_map_unique_disjoint_witness :
  [2; 7] ++ [1; 2; 4; 5] ≠ []
  ∧ ∃ m, compute_identifier_map [1; 2; 4; 5] [2; 7] [2; 7] = Some m
      ∧ (∀ c, c ∈ [2; 7] →
              is_Some (m !! c) ∧ final_identifier m c ∉ [1; 2; 4; 5])
      ∧ (∀ c1 c2, c1 ∈ [2; 7] → c2 ∈ [2; 7] →
                  final_identifier m c1 = final_identifier m c2 → c1 = c2).
Proof.
  split; [discriminate|].
  apply (identifier_map_unique_disjoint [1; 2; 4; 5] [2; 7] [2; 7]).
  discriminate.
Defined.

(** The identifiers given past the maximum: a datapoint that is not among
    the nodes always ends with one of them. *)
Lemma remap_loop_noncolliding A (st : remap_state) candidates (max0 : Z) :
  max0 ≤ max_identifier st →
  (∀ c v, identifier_map st !! c = Some v → c ∉ A → max0 < v) →
  let st' := foldl (remap_step A) st candidates in
  max0 ≤ max_identifier st'
  ∧ ∀ c v, identifier_map st' !! c = Some v → c ∉ A → max0 < v.
Proof.
  revert st. induction candidates as [|c candidates IH]; intros st Hm Hv; simpl.
  - done.
  - apply IH.
    + unfold remap_step.
      destruct (decide (c ∈ A)), (available_identifiers st); simpl; lia.
    + intros c' v Hl Hc'. destruct (decide (c' = c)) as [->|Hne].
      * rewrite remap_step_extend in Hl by (by left). simpl in Hl.
        rewrite lookup_insert_eq in Hl. injection Hl as <-. lia.
      * rewrite remap_step_lookup in Hl by done. by eapply Hv.
Qed.

(** C1 fails on the code: a datapoint whose identifier is not among the
    nodes is renumbered all the same. With nodes 1,2,4,5 and datapoints
    2,7 the datapoint 7 does not collide and is mapped to 8. *)
Theorem noncolliding_datapoint_is_renumbered :
  ∃ m, convert_nodes_to_datapoints_identifier_map [1; 2; 4; 5] [2; 7] = Some m
    ∧ (7 ∉ [1; 2; 4; 5])
    ∧ m !! 2 = Some 3
    ∧ m !! 7 = Some 8
    ∧ final_identifier m 7 = 8.
Proof.
  eexists. split; [reflexivity|].
  split; [|repeat split; reflexivity].
  rewrite !not_elem_of_cons. repeat split; try lia. apply not_elem_of_nil.
Qed.

(** The same on every input the code can receive: when the renumbering
    runs, a datapoint that is not among the nodes never keeps its
    identifier. *)
Lemma noncolliding_datapoint_never_kept nodes datapoints c :
  nodes ≠ [] → c ∈ datapoints → c ∉ nodes →
  ∃ m, convert_nodes_to_datapoints_identifier_map nodes datapoints = Some m
    ∧ final_identifier m c ≠ c.
Proof.
  intros Hn Hc Hcn. unfold convert_nodes_to_datapoints_identifier_map.
  rewrite decide_True by (destruct nodes; [done | simpl; lia]).
  rewrite decide_True by (destruct datapoints; [by apply elem_of_nil in Hc | simpl; lia]).
  destruct (remap_init_spec nodes datapoints)
    as (st0 & Hinit & Hempty & _ & _ & Hmax & _).
  { by destruct datapoints. }
  unfold compute_identifier_map, remap_run. rewrite Hinit. simpl.
  eexists. split; [done|].
  destruct (remap_loop_noncolliding (existing_nodes_identifiers_set nodes)
              st0 datapoints (max_identifier st0)) as [_ Hv]; [lia| |].
  { intros c' v Hl. by rewrite Hempty, lookup_empty in Hl. }
  destruct (remap_loop_lookup (existing_nodes_identifiers_set nodes)
              st0 datapoints c) as [v Hl]; [by left|].
  unfold final_identifier. rewrite Hl. simpl.
  specialize (Hv c v Hl). rewrite existing_nodes_identifiers_set_elem in Hv.
  specialize (Hv Hcn).
  assert (c ≤ max_identifier st0).
  { apply Hmax, in_use_identifiers_elem. by left. }
  lia.
Qed.





End remap_claims.

(** ** Further properties of the code *)

Section further.

(** X1. Normalising a canonical list returns it unchanged. *)
Theorem normalisation_idempotent (l : list (Z * Z)) :
  canonical l → identifier_ranges_fix l = l.
Proof. apply identifier_ranges_fix_canonical. Qed.

Lemma normalisation_idempotent_witness :
  canonical [(1, 30); (55, 55); (66, 70)]
  ∧ identifier_ranges_fix [(1, 30); (55, 55); (66, 70)]
    = [(1, 30); (55, 55); (66, 70)].
Proof.
  assert (Hcan : canonical [(1, 30); (55, 55); (66, 70)]).
  { split; repeat constructor; unfold wf_range, gap_before; simpl; lia. }
  split; [exact Hcan | exact (normalisation_idempotent _ Hcan)].
Defined.

(** X2. The loop of [identifier_ranges_fix] terminates: on a list of
    length [n] its condition [i < len(identifier_ranges)] becomes false
    after exactly [n - 1] iterations (none for the empty list), and the
    list is then the one the function leaves. With a bound of [n - 1]
    iterations or more the loop ends; with a smaller bound it is still
    running when the bound is reached. *)
Theorem normalisation_loop_terminates (l : list (Z * Z)) (bound : nat) :
  fix_loop_bounded bound 1 (merge_sort range_le l)
  = if decide (length l ≤ S bound)%nat
    then Some (identifier_ranges_fix l) else None.
Proof.
  rewrite identifier_ranges_fix_unfold.
  rewrite <- (Permutation_length (merge_sort_Permutation range_le l)).
  destruct (merge_sort range_le l) as [|prev rest].
  - destruct bound; cbn [fix_loop_bounded length];
      rewrite decide_False by lia; by rewrite decide_True by lia.
  - pose proof (fix_loop_bounded_merge_from bound [] prev rest) as Hrun.
    cbn [length app] in Hrun |- *. rewrite Hrun.
    destruct (decide (length rest ≤ bound)%nat);
      [by rewrite decide_True by lia | by rewrite decide_False by lia].
Qed.

Lemma normalisation_loop_terminates_witness :
  fix_loop_bounded 2 1 (merge_sort range_le [(5, 9); (1, 3); (4, 4)])
  = Some [(1, 9)]
  ∧ fix_loop_bounded 1 1 (merge_sort range_le [(5, 9); (1, 3); (4, 4)])
    = None.
Proof.
  split.
  - exact (normalisation_loop_terminates [(5, 9); (1, 3); (4, 4)] 2).
  - exact (normalisation_loop_terminates [(5, 9); (1, 3); (4, 4)] 1).
Defined.

(** The docstring's examples of [identifier_ranges_from_string]. *)
Theorem identifier_ranges_from_string_examples :
  identifier_ranges_from_string (list_ascii_of_string "1-30,55,66-70")
  = [(1, 30); (55, 55); (66, 70)]
  ∧ identifier_ranges_from_string (list_ascii_of_string "30-1, 55,66-70s")
    = [(1, 30); (55, 55); (66, 70)].
Proof. split; reflexivity. Qed.

(** X4. A token with two endpoints is appended low to high: when the second
    endpoint is smaller than the first the two are swapped. Endpoints after
    the second are ignored. *)
Theorem two_endpoint_token_ordered (token e0 e1 : str) (ends : list str) (a b : Z) :
  py_split "-" token = e0 :: e1 :: ends →
  py_int (clean_endpoint e0) = Some a →
  py_int (clean_endpoint e1) = Some b →
  parse_identifier_range token = Some (Z.min a b, Z.max a b)
  ∧ (b < a → parse_identifier_range token = Some (b, a)).
Proof.
  intros Hs Ha Hb.
  rewrite (parse_identifier_range_pair token e0 e1 ends a b Hs Ha Hb).
  split; [done|]. intros Hlt. f_equal. f_equal; lia.
Qed.

Lemma two_endpoint_token_ordered_witness :
  let token := list_ascii_of_string "30-1" in
  py_split "-" token = [list_ascii_of_string "30"; list_ascii_of_string "1"]
  ∧ parse_identifier_range token = Some (1, 30).
Proof.
  split; [reflexivity|].
  apply (two_endpoint_token_ordered (list_ascii_of_string "30-1")
           (list_ascii_of_string "30") (list_ascii_of_string "1") [] 30 1
           eq_refl eq_refl eq_refl).
  lia.
Defined.

(** X5. The docstring's example of [identifier_ranges_to_string], the empty
    list, and printing after a round trip through the parser. *)
Theorem identifier_ranges_to_string_examples :
  identifier_ranges_to_string [(1, 30); (55, 55); (66, 70)]
  = list_ascii_of_string "1-30,55,66-70"
  ∧ identifier_ranges_to_string [] = []
  ∧ ∀ rs, canonical rs → Forall (λ r, 0 ≤ r.1) rs →
          identifier_ranges_to_string
            (identifier_ranges_from_string (identifier_ranges_to_string rs))
          = identifier_ranges_to_string rs.
Proof.
  split; [reflexivity|]. split; [reflexivity|].
  intros rs Hcan Hnn. by rewrite parse_identifier_ranges_to_string.
Qed.

(** X6. The identifier map [convert_nodes_to_datapoints] applies, for any two
    nodesets: the final identifiers of the datapoints avoid the nodes'
    identifiers and are pairwise different, so every [setIdentifier] finds
    its identifier free. *)
Theorem convert_nodes_to_datapoints_identifier_map_safe
    (nodes datapoints : list Z) :
  ∃ m, convert_nodes_to_datapoints_identifier_map nodes datapoints = Some m
    ∧ (∀ c, c ∈ datapoints → final_identifier m c ∉ nodes)
    ∧ (∀ c v, m !! c = Some v →
              v ∉ in_use_identifiers nodes datapoints)
    ∧ (∀ c1 c2, c1 ∈ datapoints → c2 ∈ datapoints →
                final_identifier m c1 = final_identifier m c2 → c1 = c2).
Proof.
  unfold convert_nodes_to_datapoints_identifier_map.
  destruct (decide (0 < length nodes)%nat) as [Hn|Hn].
  - destruct (decide (0 < length datapoints)%nat) as [Hd|Hd].
    + assert (Hne : datapoints ++ nodes ≠ []).
      { destruct datapoints; [simpl in Hd; lia | done]. }
      destruct (remap_init_spec nodes datapoints Hne)
        as (st0 & Hinit & Hempty & _ & _ & Hmax & Hinv).
      unfold compute_identifier_map, remap_run. rewrite Hinit. simpl.
      eexists. split; [done|].
      apply (remap_loop_inv _ _ (existing_nodes_identifiers_set nodes) _ datapoints)
        in Hinv as [_ _ _ Hv Hi]; [|done].
      assert (Hl : ∀ c, c ∈ datapoints →
                ∃ v, identifier_map
                       (foldl (remap_step (existing_nodes_identifiers_set nodes))
                          st0 datapoints) !! c = Some v).
      { intros c Hc. by apply remap_loop_lookup; left. }
      split; [|split].
      * intros c [v Hc]%Hl. unfold final_identifier. rewrite Hc. simpl.
        destruct (Hv _ _ Hc) as (Hnin & _ & _).
        intros Hin. apply Hnin, in_use_identifiers_elem. by right.
      * intros c v Hc. by destruct (Hv _ _ Hc) as (Hnin & _ & _).
      * intros c1 c2 [v1 H1]%Hl [v2 H2]%Hl. unfold final_identifier.
        rewrite H1, H2. simpl. intros <-. by apply (Hi c1 c2 v1).
    + exists ∅. split; [done|].
      destruct datapoints; [|simpl in Hd; lia].
      split; [|split].
      * by intros c ?%elem_of_nil.
      * intros c v Hl. by rewrite lookup_empty in Hl.
      * by intros c1 c2 ?%elem_of_nil.
  - exists ∅. split; [done|].
    destruct nodes; [|simpl in Hn; lia].
    split; [|split].
    + intros c _. apply not_elem_of_nil.
    + intros c v Hl. by rewrite lookup_empty in Hl.
    + intros c1 c2 _ _. unfold final_identifier. by rewrite !lookup_empty.
Qed.

End further.

(** ** Normalisation without preconditions *)

Section normalisation_any_input.

Implicit Types (l rest : list (Z * Z)) (prev r : Z * Z).

Lemma merge_sort_range_Permutation l1 l2 :
  l1 ≡ₚ l2 → merge_sort range_le l1 = merge_sort range_le l2.
Proof.
  intros Hp. apply sorted_arrangement_unique.
  - by rewrite merge_sort_Permutation.
  - apply merge_sort_range_sorted.
Qed.

Lemma identifier_ranges_fix_Permutation l1 l2 :
  l1 ≡ₚ l2 → identifier_ranges_fix l1 = identifier_ranges_fix l2.
Proof.
  intros Hp. unfold identifier_ranges_fix.
  by rewrite (merge_sort_range_Permutation l1 l2 Hp).
Qed.

(** The first range of the merge starts where [prev] starts. *)
Lemma merge_from_head prev rest :
  ∃ stop tl, merge_from prev rest = (prev.1, stop) :: tl.
Proof.
  revert prev. induction rest as [|cur rest IH]; intros [a b]; simpl.
  - by exists b, [].
  - case_decide.
    + destruct (IH (a, if decide (cur.2 > b) then cur.2 else b))
        as (stop & tl & ->). by exists stop, tl.
    + by exists b, (merge_from cur rest).
Qed.

(** Neighbouring ranges of the merge are apart, whatever the input. *)
Lemma merge_from_apart prev rest : Sorted gap_before (merge_from prev rest).
Proof.
  revert prev. induction rest as [|cur rest IH]; intros prev; simpl.
  - repeat constructor.
  - case_decide as Hm; [apply IH|]. constructor; [apply IH|].
    destruct (merge_from_head cur rest) as (stop & tl & ->).
    constructor. unfold gap_before. simpl. lia.
Qed.

Lemma merge_from_not_nil prev rest : merge_from prev rest ≠ [].
Proof. by destruct (merge_from_head prev rest) as (stop & tl & ->). Qed.

Lemma identifier_ranges_fix_nil_iff l : identifier_ranges_fix l = [] ↔ l = [].
Proof.
  rewrite identifier_ranges_fix_unfold.
  pose proof (merge_sort_Permutation range_le l) as Hp.
  destruct (merge_sort range_le l) as [|prev rest] eqn:Hs.
  - split; [|done]. intros _. by apply Permutation_nil.
  - split.
    + by intros ?%merge_from_not_nil.
    + intros ->. symmetry in Hp. by apply Permutation_nil_cons in Hp.
Qed.

Lemma identifier_ranges_fix_apart l : Sorted gap_before (identifier_ranges_fix l).
Proof.
  rewrite identifier_ranges_fix_unfold.
  destruct (merge_sort range_le l); [constructor | apply merge_from_apart].
Qed.

(** Normalising a list to which ranges were appended after an earlier
    normalisation. *)
Lemma identifier_ranges_fix_app_fix l1 l2 :
  Forall wf_range l1 → Forall wf_range l2 →
  identifier_ranges_fix (identifier_ranges_fix l1 ++ l2)
  = identifier_ranges_fix (l1 ++ l2).
Proof.
  intros H1 H2.
  destruct (identifier_ranges_fix_spec l1 H1) as [[Hwf1 _] Hcov1].
  destruct (identifier_ranges_fix_spec (l1 ++ l2)) as [Hcan Hcov].
  { by apply Forall_app. }
  destruct (identifier_ranges_fix_spec (identifier_ranges_fix l1 ++ l2))
    as [Hcan' Hcov'].
  { by apply Forall_app. }
  apply canonical_unique; [done..|].
  intros x. by rewrite Hcov', Hcov, !covers_app, Hcov1.
Qed.

End normalisation_any_input.

(** ** Expanding ranges and extracting them *)

Section expansion.

Implicit Types (rs : list (Z * Z)) (r : Z * Z) (l : list Z).

Lemma py_range_snoc a b : a ≤ b → py_range a (b + 1) = py_range a b ++ [b].
Proof.
  intros Hab. unfold py_range.
  replace (b + 1 - a) with ((b - a) + 1) by lia.
  rewrite seqZ_app by lia. f_equal.
  replace (a + (b - a)) with b by lia.
  rewrite seqZ_cons by lia. by rewrite seqZ_nil by lia.
Qed.

Lemma py_range_one a : py_range a (a + 1) = [a].
Proof. rewrite py_range_snoc by lia. unfold py_range. by rewrite seqZ_nil by lia. Qed.

Lemma identifier_ranges_identifiers_cons r rs :
  identifier_ranges_identifiers (r :: rs)
  = py_range r.1 (r.2 + 1) ++ identifier_ranges_identifiers rs.
Proof. reflexivity. Qed.

Lemma identifier_ranges_identifiers_elem rs x :
  x ∈ identifier_ranges_identifiers rs ↔ covers rs x.
Proof.
  unfold identifier_ranges_identifiers, covers.
  rewrite list_elem_of_bind. split.
  - intros (r & Hx%py_range_elem & Hr). exists r. split; [done|].
    unfold in_range. lia.
  - intros (r & Hr & Hx). exists r. split; [|done].
    apply py_range_elem. unfold in_range in Hx. lia.
Qed.

Lemma identifier_ranges_identifiers_sorted rs :
  canonical rs → StronglySorted Z.lt (identifier_ranges_identifiers rs).
Proof.
  induction rs as [|r rs IH]; intros Hcan; [constructor|].
  rewrite identifier_ranges_identifiers_cons.
  pose proof Hcan as (_ & Hrs & _)%canonical_cons_inv.
  apply StronglySorted_app_2; [|apply py_range_sorted|by apply IH].
  intros x1 x2 Hx1%py_range_elem Hx2%identifier_ranges_identifiers_elem.
  pose proof (canonical_tail_beyond r rs x2 Hcan Hx2). lia.
Qed.

(** The ranges the extraction loop leaves expand to the identifiers it was
    given, in order. *)
Lemma extract_loop_identifiers start stop l :
  start ≤ stop →
  identifier_ranges_identifiers (extract_loop [] start stop l)
  = py_range start (stop + 1) ++ l
  ∧ Forall wf_range (extract_loop [] start stop l)
  ∧ (length (extract_loop [] start stop l) ≤ S (length l))%nat.
Proof.
  revert start stop. induction l as [|identifier l IH]; intros start stop Hle.
  - simpl. split; [|split; [|lia]].
    + unfold identifier_ranges_identifiers. simpl. by rewrite app_nil_r.
    + by constructor.
  - simpl. case_decide as Hnext.
    + subst identifier. destruct (IH start (stop + 1)) as (-> & Hwf & Hlen); [lia|].
      split; [|split; [done|lia]].
      rewrite (py_range_snoc start (stop + 1)) by lia. by rewrite <- app_assoc.
    + rewrite extract_loop_acc. cbn [app].
      destruct (IH identifier identifier) as (Hid & Hwf & Hlen); [lia|].
      split; [|split].
      * rewrite identifier_ranges_identifiers_cons, Hid. cbn [fst snd].
        by rewrite py_range_one.
      * by constructor.
      * cbn [length]. lia.
Qed.

Lemma domain_iterator_to_identifier_ranges_spec l :
  StronglySorted Z.lt l →
  canonical (domain_iterator_to_identifier_ranges l)
  ∧ ∀ x, covers (domain_iterator_to_identifier_ranges l) x ↔ x ∈ l.
Proof.
  destruct l as [|identifier l]; intros Hs; simpl.
  - split; [apply canonical_nil|]. intros x.
    by rewrite covers_nil_iff, elem_of_nil.
  - destruct (extract_loop_spec identifier identifier l) as [Hcan Hcov];
      [lia|done|].
    split; [done|]. intros x. rewrite Hcov, elem_of_cons. intuition lia.
Qed.

End expansion.

(** ** Further properties: normalisation and extraction *)

Section further_ranges.

(** X7. The order of the ranges in the argument of [identifier_ranges_fix]
    does not matter: two lists with the same ranges, however arranged and
    whether well formed or not, are normalised to the same list. *)
Theorem normalisation_order_irrelevant (l1 l2 : list (Z * Z)) :
  l1 ≡ₚ l2 → identifier_ranges_fix l1 = identifier_ranges_fix l2.
Proof. apply identifier_ranges_fix_Permutation. Qed.

Lemma normalisation_order_irrelevant_witness :
  [(5, 9); (1, 3); (4, 4)] ≡ₚ [(4, 4); (5, 9); (1, 3)]
  ∧ identifier_ranges_fix [(5, 9); (1, 3); (4, 4)]
    = identifier_ranges_fix [(4, 4); (5, 9); (1, 3)].
Proof.
  assert (Hp : [(5, 9); (1, 3); (4, 4)] ≡ₚ [(4, 4); (5, 9); (1, 3)]).
  { apply (bool_decide_unpack _). reflexivity. }
  split; [exact Hp | exact (normalisation_order_irrelevant _ _ Hp)].
Defined.

(** X8. What [identifier_ranges_fix] guarantees of any list, malformed
    ranges ([start > stop]) included: neighbouring ranges of the result
    neither overlap nor touch, every start of the result is a start of the
    input and every stop a stop of the input, the result is not longer
    than the input, and it is empty only for the empty list. *)
Theorem normalisation_of_any_list (l : list (Z * Z)) :
  Sorted gap_before (identifier_ranges_fix l)
  ∧ (∀ r, r ∈ identifier_ranges_fix l → r.1 ∈ l.*1 ∧ r.2 ∈ l.*2)
  ∧ (length (identifier_ranges_fix l) ≤ length l)%nat
  ∧ (identifier_ranges_fix l = [] ↔ l = []).
Proof.
  split; [apply identifier_ranges_fix_apart|].
  split; [apply identifier_ranges_fix_endpoints|].
  split; [apply identifier_ranges_fix_length|].
  apply identifier_ranges_fix_nil_iff.
Qed.

(** X9. Ranges may be appended to a normalised list and the list
    normalised again: for well-formed ranges the result is the
    normalisation of all the ranges together. *)
Theorem normalisation_incremental (l1 l2 : list (Z * Z)) :
  Forall wf_range l1 → Forall wf_range l2 →
  identifier_ranges_fix (identifier_ranges_fix l1 ++ l2)
  = identifier_ranges_fix (l1 ++ l2).
Proof. apply identifier_ranges_fix_app_fix. Qed.

Lemma normalisation_incremental_witness :
  Forall wf_range [(5, 9); (1, 3)] ∧ Forall wf_range [(4, 4); (20, 22)]
  ∧ identifier_ranges_fix (identifier_ranges_fix [(5, 9); (1, 3)]
                             ++ [(4, 4); (20, 22)])
    = identifier_ranges_fix ([(5, 9); (1, 3)] ++ [(4, 4); (20, 22)]).
Proof.
  assert (H1 : Forall wf_range [(5, 9); (1, 3)]).
  { repeat constructor; unfold wf_range; simpl; lia. }
  assert (H2 : Forall wf_range [(4, 4); (20, 22)]).
  { repeat constructor; unfold wf_range; simpl; lia. }
  split; [exact H1|]. split; [exact H2|].
  exact (normalisation_incremental _ _ H1 H2).
Defined.

(** X10. Extraction loses nothing, whatever the iterator yields (ascending
    or not, with repeats or not): the ranges returned, expanded in order
    as the [for identifier in range(start, stop + 1)] loops expand them,
    give back the identifiers yielded, in the order they were yielded.
    Every range returned has [start <= stop], and there are no more ranges
    than identifiers. *)
Theorem extraction_lossless (iterator : list Z) :
  identifier_ranges_identifiers (domain_iterator_to_identifier_ranges iterator)
  = iterator
  ∧ Forall wf_range (domain_iterator_to_identifier_ranges iterator)
  ∧ (length (domain_iterator_to_identifier_ranges iterator)
     ≤ length iterator)%nat.
Proof.
  destruct iterator as [|identifier iterator]; simpl.
  - by repeat split.
  - destruct (extract_loop_identifiers identifier identifier iterator)
      as (-> & Hwf & Hlen); [lia|].
    by rewrite py_range_one.
Qed.

(** X11. Extraction inverts expansion: the identifiers of a canonical range
    list, yielded in order, are extracted to that same list. *)
Theorem extraction_of_expansion (rs : list (Z * Z)) :
  canonical rs →
  domain_iterator_to_identifier_ranges (identifier_ranges_identifiers rs) = rs.
Proof.
  intros Hcan.
  destruct (domain_iterator_to_identifier_ranges_spec
              (identifier_ranges_identifiers rs)) as [Hcan' Hcov].
  { by apply identifier_ranges_identifiers_sorted. }
  apply canonical_unique; [done..|].
  intros x. by rewrite Hcov, identifier_ranges_identifiers_elem.
Qed.

Lemma extraction_of_expansion_witness :
  canonical [(1, 3); (55, 55); (66, 70)]
  ∧ identifier_ranges_identifiers [(1, 3); (55, 55); (66, 70)]
    = [1; 2; 3; 55; 66; 67; 68; 69; 70]
  ∧ domain_iterator_to_identifier_ranges
      (identifier_ranges_identifiers [(1, 3); (55, 55); (66, 70)])
    = [(1, 3); (55, 55); (66, 70)].
Proof.
  assert (Hcan : canonical [(1, 3); (55, 55); (66, 70)]).
  { split; repeat constructor; unfold wf_range, gap_before; simpl; lia. }
  split; [exact Hcan|]. split; [reflexivity|].
  exact (extraction_of_expansion _ Hcan).
Defined.

End further_ranges.

(** ** Groups and identifier ranges *)

Section group_ranges.

Implicit Types (mesh group : gset Z) (rs : list (Z * Z)) (l : list Z) (x : Z).

Lemma domain_iterator_elem group x : x ∈ domain_iterator group ↔ x ∈ group.
Proof.
  unfold domain_iterator. by rewrite merge_sort_Permutation, elem_of_elements.
Qed.

Lemma domain_iterator_sorted group : StronglySorted Z.lt (domain_iterator group).
Proof.
  apply sorted_nodup_strict.
  - apply StronglySorted_merge_sort; apply _.
  - unfold domain_iterator. rewrite merge_sort_Permutation.
    apply NoDup_elements.
Qed.

Lemma add_objects_app mesh group l1 l2 :
  add_objects mesh group (l1 ++ l2)
  = match add_objects mesh group l1 with
    | Returned group' => add_objects mesh group' l2
    | OverflowError group' => OverflowError group'
    end.
Proof.
  revert group. induction l1 as [|y l1 IH]; intros group; simpl; [done|].
  destruct (add_object mesh group y); [apply IH | done].
Qed.

(** The loop over identifiers that are all C [int]s returns, having added
    those that the domain has. *)
Lemma add_objects_returned mesh group l :
  Forall c_int l →
  ∃ group', add_objects mesh group l = Returned group'
    ∧ ∀ x, x ∈ group' ↔ x ∈ group ∨ (x ∈ mesh ∧ x ∈ l).
Proof.
  intros Hl. revert group.
  induction Hl as [|y l Hy _ IH]; intros group; simpl.
  - exists group. split; [done|]. intros x. rewrite elem_of_nil. tauto.
  - unfold add_object. rewrite decide_True by done.
    destruct (IH (if decide (y ∈ mesh) then group ∪ {[y]} else group))
      as (group' & -> & Hx).
    exists group'. split; [done|]. intros x. rewrite Hx, elem_of_cons.
    case_decide as Hm.
    + rewrite elem_of_union, elem_of_singleton. split.
      * intros [[?|Heq]|[? ?]]; subst; auto.
      * intros [?|[? [Heq|?]]]; subst; auto.
    + split.
      * intros [?|[? ?]]; auto.
      * intros [?|[? [Heq|?]]]; subst; auto. done.
Qed.

(** At the first identifier that is no C [int] the loop is left by
    [OverflowError], with what it has added so far. *)
Lemma add_objects_raised mesh group pre bad post :
  Forall c_int pre → ¬ c_int bad →
  ∃ group', add_objects mesh group (pre ++ bad :: post) = OverflowError group'
    ∧ ∀ x, x ∈ group' ↔ x ∈ group ∨ (x ∈ mesh ∧ x ∈ pre).
Proof.
  intros Hpre Hbad.
  destruct (add_objects_returned mesh group pre Hpre) as (group' & Hrun & Hx).
  exists group'. split; [|done].
  rewrite add_objects_app, Hrun. simpl. unfold add_object.
  by rewrite decide_False.
Qed.

(** The two nested loops visit the identifiers of the ranges in order. *)
Lemma mesh_group_add_identifier_ranges_flat mesh group rs :
  mesh_group_add_identifier_ranges mesh group rs
  = add_objects mesh group (identifier_ranges_identifiers rs).
Proof.
  revert group. induction rs as [|r rs IH]; intros group; [done|].
  rewrite identifier_ranges_identifiers_cons, add_objects_app. simpl.
  destruct (add_objects mesh group (py_range r.1 (r.2 + 1))); [apply IH | done].
Qed.

Lemma nodeset_group_add_identifier_ranges_eq nodeset group rs :
  nodeset_group_add_identifier_ranges nodeset group rs
  = mesh_group_add_identifier_ranges nodeset group rs.
Proof.
  revert group. induction rs as [|r rs IH]; intros group; simpl; [done|].
  destruct (add_objects nodeset group (py_range r.1 (r.2 + 1))); [apply IH | done].
Qed.

(** When every identifier of the ranges is a C [int] the call returns,
    with the group and the objects of the domain that the ranges cover. *)
Lemma mesh_group_add_identifier_ranges_returned mesh group rs :
  (∀ x, covers rs x → c_int x) →
  ∃ group', mesh_group_add_identifier_ranges mesh group rs = Returned group'
    ∧ ∀ x, x ∈ group' ↔ x ∈ group ∨ (x ∈ mesh ∧ covers rs x).
Proof.
  intros Hc. rewrite mesh_group_add_identifier_ranges_flat.
  destruct (add_objects_returned mesh group (identifier_ranges_identifiers rs))
    as (group' & Hrun & Hx).
  { apply Forall_forall. intros x Hx%identifier_ranges_identifiers_elem. auto. }
  exists group'. split; [done|]. intros x.
  by rewrite Hx, identifier_ranges_identifiers_elem.
Qed.

Lemma mesh_group_to_identifier_ranges_spec group :
  canonical (mesh_group_to_identifier_ranges group)
  ∧ ∀ x, covers (mesh_group_to_identifier_ranges group) x ↔ x ∈ group.
Proof.
  destruct (domain_iterator_to_identifier_ranges_spec (domain_iterator group))
    as [Hcan Hcov]; [apply domain_iterator_sorted|].
  split; [done|]. intros x.
  unfold mesh_group_to_identifier_ranges. by rewrite Hcov, domain_iterator_elem.
Qed.

End group_ranges.

(** ** Further properties: groups and identifier ranges *)

Section further_groups.

(** X12. [mesh_group_add_identifier_ranges] and
    [nodeset_group_add_identifier_ranges] visit the identifiers of the
    ranges in order. When all of them are C [int]s the call returns,
    having added to the group the objects of the master domain whose
    identifier lies in one of the ranges, and nothing else: members stay,
    an identifier with no object in the domain is skipped, and the group
    stays inside its domain. At the first identifier that is no C [int]
    the call is left by [OverflowError], the group holding what was added
    up to there. Ranges with [start > stop] visit nothing. *)
Theorem add_identifier_ranges_members
    (domain group : gset Z) (identifier_ranges : list (Z * Z)) :
  (Forall c_int (identifier_ranges_identifiers identifier_ranges) →
   ∃ group',
     mesh_group_add_identifier_ranges domain group identifier_ranges
     = Returned group'
     ∧ (∀ x, x ∈ group' ↔ x ∈ group ∨ (x ∈ domain ∧ covers identifier_ranges x))
     ∧ (group ⊆ domain → group' ⊆ domain))
  ∧ (∀ pre bad post,
       identifier_ranges_identifiers identifier_ranges = pre ++ bad :: post →
       Forall c_int pre → ¬ c_int bad →
       ∃ group',
         mesh_group_add_identifier_ranges domain group identifier_ranges
         = OverflowError group'
         ∧ (∀ x, x ∈ group' ↔ x ∈ group ∨ (x ∈ domain ∧ x ∈ pre)))
  ∧ nodeset_group_add_identifier_ranges domain group identifier_ranges
    = mesh_group_add_identifier_ranges domain group identifier_ranges
  ∧ (∀ x, x ∈ identifier_ranges_identifiers identifier_ranges
          ↔ covers identifier_ranges x)
  ∧ (Forall (λ r, r.2 < r.1) identifier_ranges →
     mesh_group_add_identifier_ranges domain group identifier_ranges
     = Returned group).
Proof.
  split; [|split; [|split; [|split]]].
  - intros Hc.
    destruct (mesh_group_add_identifier_ranges_returned domain group
                identifier_ranges) as (group' & Hrun & Hx).
    { intros x Hx%identifier_ranges_identifiers_elem.
      rewrite Forall_forall in Hc. auto. }
    exists group'. split; [done|]. split; [done|].
    intros Hsub x [?|[? _]]%Hx; auto.
  - intros pre bad post Hvisit Hpre Hbad.
    rewrite mesh_group_add_identifier_ranges_flat, Hvisit.
    by apply add_objects_raised.
  - apply nodeset_group_add_identifier_ranges_eq.
  - intros x. apply identifier_ranges_identifiers_elem.
  - intros Hbad. rewrite mesh_group_add_identifier_ranges_flat.
    replace (identifier_ranges_identifiers identifier_ranges) with (@nil Z);
      [done|].
    symmetry. apply elem_of_nil_inv.
    intros x (r & Hr & Hx)%identifier_ranges_identifiers_elem.
    rewrite Forall_forall in Hbad. specialize (Hbad _ Hr).
    unfold in_range in Hx. simpl in Hbad. lia.
Qed.

Lemma add_identifier_ranges_members_witness :
  identifier_ranges_from_string (list_ascii_of_string "2147483647-2147483648")
  = [(2147483647, 2147483648)]
  ∧ Forall c_int [2147483647] ∧ ¬ c_int 2147483648
  ∧ ∃ group',
      mesh_group_add_identifier_ranges {[2147483647]} ∅
        [(2147483647, 2147483648)]
      = OverflowError group'
      ∧ (∀ x, x ∈ group'
              ↔ x ∈ (∅ : gset Z)
                ∨ (x ∈ ({[2147483647]} : gset Z) ∧ x ∈ [2147483647])).
Proof.
  assert (Hpre : Forall c_int [2147483647]).
  { constructor; [unfold c_int; lia | constructor]. }
  assert (Hbad : ¬ c_int 2147483648) by (unfold c_int; lia).
  split; [reflexivity|]. split; [exact Hpre|]. split; [exact Hbad|].
  exact (proj1 (proj2 (add_identifier_ranges_members {[2147483647]} ∅
                         [(2147483647, 2147483648)]))
           [2147483647] 2147483648 [] eq_refl Hpre Hbad).
Defined.

(** X13. The ranges of a group: [mesh_group_to_identifier_ranges] and
    [nodeset_group_to_identifier_ranges] return a canonical range list that
    covers exactly the identifiers of the members (the empty list for an
    empty group), and adding these ranges to a group [target] of a domain
    adds the members that the domain has; the members, being identifiers
    of objects, are C [int]s. *)
Theorem group_to_identifier_ranges_correct (group domain target : gset Z) :
  canonical (mesh_group_to_identifier_ranges group)
  ∧ (∀ x, covers (mesh_group_to_identifier_ranges group) x ↔ x ∈ group)
  ∧ nodeset_group_to_identifier_ranges group
    = mesh_group_to_identifier_ranges group
  ∧ (mesh_group_to_identifier_ranges group = [] ↔ group = ∅)
  ∧ (set_Forall c_int group →
     mesh_group_add_identifier_ranges domain target
       (mesh_group_to_identifier_ranges group)
     = Returned (target ∪ (group ∩ domain))).
Proof.
  destruct (mesh_group_to_identifier_ranges_spec group) as [Hcan Hcov].
  split; [done|]. split; [done|]. split; [reflexivity|]. split.
  - split.
    + intros Hnil. apply set_eq. intros x. rewrite <- Hcov, Hnil.
      by rewrite covers_nil_iff, elem_of_empty.
    + intros ->. reflexivity.
  - intros Hc.
    destruct (mesh_group_add_identifier_ranges_returned domain target
                (mesh_group_to_identifier_ranges group))
      as (group' & -> & Hx).
    { intros x Hx%Hcov. by apply Hc. }
    f_equal. apply set_eq. intros x.
    rewrite Hx, Hcov, elem_of_union, elem_of_intersection. tauto.
Qed.

(** X14. From ranges to a group and back: when the ranges are well formed
    and every identifier they cover has an object in the domain, whose
    identifiers are C [int]s, the call returns and the ranges of the group
    built from them are their normalisation. *)
Theorem identifier_ranges_of_added_group
    (domain : gset Z) (identifier_ranges : list (Z * Z)) :
  set_Forall c_int domain →
  Forall wf_range identifier_ranges →
  (∀ x, covers identifier_ranges x → x ∈ domain) →
  ∃ group,
    mesh_group_add_identifier_ranges domain ∅ identifier_ranges
    = Returned group
    ∧ mesh_group_to_identifier_ranges group
      = identifier_ranges_fix identifier_ranges.
Proof.
  intros Hc Hwf Hdom.
  destruct (mesh_group_add_identifier_ranges_returned domain ∅
              identifier_ranges) as (group & Hrun & Hx).
  { intros x Hx. by apply Hc, Hdom. }
  exists group. split; [done|].
  destruct (mesh_group_to_identifier_ranges_spec group) as [Hcan Hcov].
  destruct (identifier_ranges_fix_spec identifier_ranges Hwf) as [Hcan' Hcov'].
  apply canonical_unique; [done..|].
  intros x. rewrite Hcov, Hcov', Hx.
  split; [intros [[]%not_elem_of_empty|[_ ?]]; done|].
  intros Hin. right. split; [by apply Hdom | done].
Qed.

Lemma identifier_ranges_of_added_group_witness :
  let domain : gset Z := list_to_set [1; 2; 3; 4; 5; 6; 7; 8; 9] in
  let identifier_ranges := [(5, 7); (1, 2); (3, 3)] in
  set_Forall c_int domain
  ∧ Forall wf_range identifier_ranges
  ∧ (∀ x, covers identifier_ranges x → x ∈ domain)
  ∧ ∃ group,
      mesh_group_add_identifier_ranges domain ∅ identifier_ranges
      = Returned group
      ∧ mesh_group_to_identifier_ranges group = [(1, 3); (5, 7)].
Proof.
  assert (Hc : set_Forall c_int
                 (list_to_set [1; 2; 3; 4; 5; 6; 7; 8; 9] : gset Z)).
  { intros x. rewrite elem_of_list_to_set, !elem_of_cons, elem_of_nil.
    unfold c_int. lia. }
  assert (Hwf : Forall wf_range [(5, 7); (1, 2); (3, 3)]).
  { repeat constructor; unfold wf_range; simpl; lia. }
  assert (Hdom : ∀ x, covers [(5, 7); (1, 2); (3, 3)] x
                      → x ∈ (list_to_set [1; 2; 3; 4; 5; 6; 7; 8; 9] : gset Z)).
  { intros x. rewrite !covers_cons, covers_nil_iff, elem_of_list_to_set.
    rewrite !elem_of_cons, elem_of_nil. unfold in_range. simpl. lia. }
  split; [exact Hc|]. split; [exact Hwf|]. split; [exact Hdom|].
  exact (identifier_ranges_of_added_group _ _ Hc Hwf Hdom).
Defined.

(** X15. A group written as text and read back: when the members, which
    are C [int]s, have no negative identifier, parsing the printed ranges
    of the group gives the ranges of the group, and adding the parsed
    ranges to an empty group of a domain that has the members returns and
    rebuilds the group. *)
Theorem group_text_round_trip (group domain : gset Z) :
  (∀ x, x ∈ group → 0 ≤ x) → set_Forall c_int group → group ⊆ domain →
  identifier_ranges_from_string
    (identifier_ranges_to_string (mesh_group_to_identifier_ranges group))
  = mesh_group_to_identifier_ranges group
  ∧ mesh_group_add_identifier_ranges domain ∅
      (identifier_ranges_from_string
         (identifier_ranges_to_string (mesh_group_to_identifier_ranges group)))
    = Returned group.
Proof.
  intros Hnn Hc Hsub.
  destruct (mesh_group_to_identifier_ranges_spec group) as [Hcan Hcov].
  assert (Hrt : identifier_ranges_from_string
                  (identifier_ranges_to_string
                     (mesh_group_to_identifier_ranges group))
                = mesh_group_to_identifier_ranges group).
  { apply parse_identifier_ranges_to_string; [done|].
    apply Forall_forall. intros r Hr. apply Hnn, Hcov. exists r.
    split; [done|]. destruct Hcan as [Hwf _]. rewrite Forall_forall in Hwf.
    specialize (Hwf _ Hr). unfold in_range, wf_range in *. lia. }
  split; [done|]. rewrite Hrt.
  destruct (mesh_group_add_identifier_ranges_returned domain ∅
              (mesh_group_to_identifier_ranges group))
    as (group' & -> & Hx).
  { intros x Hx%Hcov. by apply Hc. }
  f_equal. apply set_eq. intros x. rewrite Hx, Hcov, elem_of_empty.
  split; [intros [[]|[_ ?]]; done|].
  intros Hin. right. split; [by apply Hsub | done].
Qed.

Lemma group_text_round_trip_witness :
  let group : gset Z := list_to_set [70; 1; 2; 3; 55; 66; 67; 68; 69] in
  (∀ x, x ∈ group → 0 ≤ x) ∧ set_Forall c_int group ∧ group ⊆ group
  ∧ identifier_ranges_to_string (mesh_group_to_identifier_ranges group)
    = list_ascii_of_string "1-3,55,66-70"
  ∧ mesh_group_add_identifier_ranges group ∅
      (identifier_ranges_from_string
         (identifier_ranges_to_string (mesh_group_to_identifier_ranges group)))
    = Returned group.
Proof.
  assert (Hnn : ∀ x, x ∈ (list_to_set [70; 1; 2; 3; 55; 66; 67; 68; 69] : gset Z)
                     → 0 ≤ x).
  { intros x. rewrite elem_of_list_to_set, !elem_of_cons, elem_of_nil. lia. }
  assert (Hc : set_Forall c_int
                 (list_to_set [70; 1; 2; 3; 55; 66; 67; 68; 69] : gset Z)).
  { intros x. rewrite elem_of_list_to_set, !elem_of_cons, elem_of_nil.
    unfold c_int. lia. }
  split; [exact Hnn|]. split; [exact Hc|]. split; [done|].
  split; [reflexivity|].
  exact (proj2 (group_text_round_trip _ _ Hnn Hc (reflexivity _))).
Defined.

End further_groups.

(** ** The cleanup of an endpoint *)

Section cleanup.

Implicit Types (c : ascii) (s t ws ds junk : str).

Lemma drop_while_app_true {A} (p : A → bool) (l1 l2 : list A) :
  Forall (λ x, p x = true) l1 → drop_while p (l1 ++ l2) = drop_while p l2.
Proof. induction 1 as [|x l1 Hx _ IH]; simpl; [done | by rewrite Hx]. Qed.

Lemma drop_while_app_false {A} (p : A → bool) (l1 l2 : list A) :
  Forall (λ x, p x = false) l2 →
  drop_while p (l1 ++ l2) = drop_while p l1 ++ l2.
Proof.
  intros H2. induction l1 as [|x l1 IH]; simpl.
  - by apply drop_while_false.
  - by destruct (p x).
Qed.

Lemma drop_while_suffix {A} (p : A → bool) (l : list A) :
  ∃ h, l = h ++ drop_while p l.
Proof.
  induction l as [|x l [h IH]]; simpl; [by exists []|].
  destruct (p x); [|by exists []]. exists (x :: h). simpl. by f_equal.
Qed.

Lemma take_while_app_stop {A} (p : A → bool) (l1 l2 : list A) :
  Forall (λ x, p x = true) l1 →
  (∀ x, head l2 = Some x → p x = false) →
  take_while p (l1 ++ l2) = l1.
Proof.
  intros H1 H2. induction H1 as [|x l1 Hx _ IH]; simpl.
  - destruct l2 as [|y l2]; [done|]. simpl. by rewrite (H2 y).
  - by rewrite Hx, IH.
Qed.

Lemma take_while_app_keep {A} (p : A → bool) (l1 l2 : list A) :
  Forall (λ x, p x = true) l1 →
  take_while p (l1 ++ l2) = l1 ++ take_while p l2.
Proof. induction 1 as [|x l1 Hx _ IH]; simpl; [done | by rewrite Hx, IH]. Qed.

Lemma isdigit_not_space c : isdigit c = true → isspace c = false.
Proof.
  unfold isdigit, isspace. cbn zeta. rewrite !orb_true_iff, !orb_false_iff.
  rewrite !bool_decide_eq_true, !bool_decide_eq_false. lia.
Qed.

Lemma isspace_not_hyphen c : isspace c = true → c ≠ "-"%char.
Proof. by intros Hc ->. Qed.

Lemma isdigit_not_hyphen c : isdigit c = true → c ≠ "-"%char.
Proof. by intros Hc ->. Qed.

(** [strip()] of a string whose core [s] neither starts nor ends with
    whitespace: the whitespace before it goes, and what follows it loses
    its trailing whitespace. *)
Lemma strip_around ws s junk :
  Forall (λ c, isspace c = true) ws →
  Forall (λ c, isspace c = false) s → s ≠ [] →
  ∃ junk' t, strip (ws ++ s ++ junk) = s ++ junk' ∧ junk = junk' ++ t.
Proof.
  intros Hws Hs Hne. unfold strip.
  rewrite drop_while_app_true by done.
  destruct s as [|c s]; [done|]. apply Forall_cons in Hs as [Hc Hs].
  cbn [app drop_while]. rewrite Hc.
  change (c :: s ++ junk) with ((c :: s) ++ junk).
  rewrite reverse_app.
  rewrite drop_while_app_false by (apply Forall_reverse; by constructor).
  rewrite reverse_app, reverse_involutive.
  destruct (drop_while_suffix isspace (reverse junk)) as [h Hh].
  exists (reverse (drop_while isspace (reverse junk))), (reverse h).
  split; [done|].
  rewrite <- reverse_app, <- Hh. by rewrite reverse_involutive.
Qed.

(** Whitespace before the digits and anything after them that does not
    start with a digit are cleaned away. *)
Lemma clean_endpoint_tolerant ws ds junk :
  Forall (λ c, isspace c = true) ws →
  Forall is_decimal ds → ds ≠ [] →
  (∀ c, head junk = Some c → isdigit c = false) →
  clean_endpoint (ws ++ ds ++ junk) = ds.
Proof.
  intros Hws Hds Hne Hjunk. unfold clean_endpoint.
  destruct (strip_around ws ds junk) as (junk' & t & -> & Hj); [done| |done|].
  { eapply Forall_impl; [exact Hds | apply is_decimal_not_space]. }
  apply take_while_app_stop.
  - eapply Forall_impl; [exact Hds | apply is_decimal_isdigit].
  - intros c Hc. apply Hjunk. rewrite Hj.
    destruct junk' as [|c' junk']; [done|]. simpl in *. done.
Qed.

(** A digit that is not decimal stays in the endpoint: the cleanup stops
    at the first character that is not [isdigit], not at the first that
    [int()] refuses. *)
Lemma clean_endpoint_keeps_digit ds c junk :
  Forall is_decimal ds → isdigit c = true →
  ∃ t, clean_endpoint (ds ++ c :: junk) = ds ++ c :: t.
Proof.
  intros Hds Hc. unfold clean_endpoint.
  destruct (strip_around [] (ds ++ [c]) junk) as (junk' & t & Hstrip & Hj).
  { constructor. }
  { apply Forall_app. split.
    - eapply Forall_impl; [exact Hds | apply is_decimal_not_space].
    - repeat constructor. by apply isdigit_not_space. }
  { by destruct ds. }
  simpl in Hstrip. rewrite <- !app_assoc in Hstrip. simpl in Hstrip.
  rewrite Hstrip.
  rewrite take_while_app_keep
    by (eapply Forall_impl; [exact Hds | apply is_decimal_isdigit]).
  simpl. rewrite Hc. eauto.
Qed.

(** The first piece of a split extends a prefix without the separator. *)
Lemma py_split_prefix (sep : ascii) s junk :
  sep ∉ s →
  ∃ junk' t ends,
    py_split sep (s ++ junk) = (s ++ junk') :: ends ∧ junk = junk' ++ t.
Proof.
  induction s as [|c s IH].
  - intros _. simpl. induction junk as [|c junk (junk' & t & ends & Hs & Hj)].
    + by exists [], [], [].
    + simpl. case_decide.
      * by exists [], (c :: junk), (py_split sep junk).
      * rewrite Hs. exists (c :: junk'), t, ends. split; [done|].
        simpl. by f_equal.
  - intros [Hc Hs]%not_elem_of_cons.
    destruct (IH Hs) as (junk' & t & ends & Hsplit & Hj).
    simpl. rewrite decide_False by done. rewrite Hsplit.
    by exists junk', t, ends.
Qed.

End cleanup.

(** ** Further properties: parsing and printing *)

Section further_parsing.

Implicit Types (c : ascii) (s token ws ds junk : str).

(** X16. The identifiers of a parse result are those of the tokens that
    parse: an integer is covered by the result exactly when it lies in the
    range of one of the comma-separated tokens. *)
Theorem identifier_ranges_from_string_coverage s (x : Z) :
  covers (identifier_ranges_from_string s) x
  ↔ ∃ token r, token ∈ py_split "," s
               ∧ parse_identifier_range token = Some r ∧ in_range r x.
Proof.
  unfold identifier_ranges_from_string.
  destruct (identifier_ranges_fix_spec
              (collect_identifier_ranges (py_split "," s))) as [_ Hcov].
  { eapply Forall_impl; [apply collect_identifier_ranges_wf|].
    intros r Hr. simpl in Hr. unfold wf_range. lia. }
  rewrite Hcov, collect_identifier_ranges_omap. unfold covers. split.
  - intros (r & (token & Htok & Hr)%list_elem_of_omap & Hx). eauto.
  - intros (token & r & Htok & Hr & Hx). exists r. split; [|done].
    apply list_elem_of_omap. eauto.
Qed.

(** X3. Manual input is tolerated: whitespace before an integer and
    anything after it that does not start with a digit are ignored. A token
    made of whitespace, decimal digits reading [a], and such a tail without
    a hyphen parses to [[a, a]]; followed by a hyphen, whitespace, digits
    reading [b] and any tail that does not start with a digit (hyphens
    included) it parses to [[min a b, max a b]]. *)
Theorem parse_identifier_range_tolerant ws1 ds1 junk1 ws2 ds2 junk2 (a b : Z) :
  Forall (λ c, isspace c = true) ws1 → Forall is_decimal ds1 →
  py_int ds1 = Some a →
  (∀ c, head junk1 = Some c → isdigit c = false) → "-"%char ∉ junk1 →
  Forall (λ c, isspace c = true) ws2 → Forall is_decimal ds2 →
  py_int ds2 = Some b →
  (∀ c, head junk2 = Some c → isdigit c = false) →
  parse_identifier_range (ws1 ++ ds1 ++ junk1) = Some (a, a)
  ∧ parse_identifier_range
      (ws1 ++ ds1 ++ junk1 ++ "-"%char :: ws2 ++ ds2 ++ junk2)
    = Some (Z.min a b, Z.max a b).
Proof.
  intros Hws1 Hds1 Ha Hj1 Hh1 Hws2 Hds2 Hb Hj2.
  assert (Hne1 : ds1 ≠ []) by (by intros ->).
  assert (Hne2 : ds2 ≠ []) by (by intros ->).
  assert (Hno1 : "-"%char ∉ ws1 ++ ds1 ++ junk1).
  { rewrite !not_elem_of_app. split; [|split; [|done]].
    - intros Hin. rewrite Forall_forall in Hws1. by apply Hws1 in Hin.
    - by apply decimal_no_hyphen. }
  assert (Hno2 : "-"%char ∉ ws2 ++ ds2).
  { rewrite not_elem_of_app. split.
    - intros Hin. rewrite Forall_forall in Hws2. by apply Hws2 in Hin.
    - by apply decimal_no_hyphen. }
  split.
  - apply (parse_identifier_range_single _ (ws1 ++ ds1 ++ junk1)).
    + by apply py_split_absent.
    + by rewrite clean_endpoint_tolerant.
  - destruct (py_split_prefix "-" (ws2 ++ ds2) junk2 Hno2)
      as (junk2' & t & ends & Hsplit & Hj).
    apply (parse_identifier_range_pair _ (ws1 ++ ds1 ++ junk1)
             ((ws2 ++ ds2) ++ junk2') ends).
    + replace (ws1 ++ ds1 ++ junk1 ++ "-"%char :: ws2 ++ ds2 ++ junk2)
        with ((ws1 ++ ds1 ++ junk1) ++ "-"%char :: (ws2 ++ ds2) ++ junk2)
        by (by rewrite <- !app_assoc).
      rewrite py_split_app by done. by rewrite Hsplit.
    + by rewrite clean_endpoint_tolerant.
    + rewrite <- app_assoc. rewrite clean_endpoint_tolerant; [done..|].
      intros c Hc. apply Hj2. rewrite Hj.
      destruct junk2' as [|c' junk2']; [done|]. simpl in *. done.
Qed.

Lemma parse_identifier_range_tolerant_witness :
  parse_identifier_range (list_ascii_of_string " 55 ") = Some (55, 55)
  ∧ parse_identifier_range (list_ascii_of_string " 55 - 7s-8") = Some (7, 55).
Proof.
  assert (Hsp : Forall (λ c, isspace c = true) (list_ascii_of_string " ")).
  { by repeat constructor. }
  assert (H55 : Forall is_decimal (list_ascii_of_string "55")).
  { repeat constructor; unfold is_decimal; simpl; lia. }
  assert (H7 : Forall is_decimal (list_ascii_of_string "7")).
  { repeat constructor; unfold is_decimal; simpl; lia. }
  assert (Hj1 : ∀ c, head (list_ascii_of_string " ") = Some c → isdigit c = false).
  { by intros c [= <-]. }
  assert (Hh1 : "-"%char ∉ list_ascii_of_string " ").
  { intros Hin. simpl in Hin. apply list_elem_of_singleton in Hin.
    discriminate. }
  assert (Hj2 : ∀ c, head (list_ascii_of_string "s-8") = Some c → isdigit c = false).
  { by intros c [= <-]. }
  exact (parse_identifier_range_tolerant
           (list_ascii_of_string " ") (list_ascii_of_string "55")
           (list_ascii_of_string " ") (list_ascii_of_string " ")
           (list_ascii_of_string "7") (list_ascii_of_string "s-8") 55 7
           Hsp H55 eq_refl Hj1 Hh1 Hsp H7 eq_refl Hj2).
Defined.

(** X17. A digit that is not decimal is not cut off: a token whose first
    endpoint is decimal digits followed by a character that [isdigit]
    accepts and [int()] refuses (a superscript two, say) is dropped as a
    whole, where a letter in that place would have been cut off. *)
Theorem parse_identifier_range_other_digit ds c junk :
  Forall is_decimal ds → isdigit c = true → ¬ is_decimal c →
  parse_identifier_range (ds ++ c :: junk) = None.
Proof.
  intros Hds Hc Hnd.
  assert (Hno : "-"%char ∉ ds ++ [c]).
  { rewrite not_elem_of_app, list_elem_of_singleton. split.
    - by apply decimal_no_hyphen.
    - intros Heq. symmetry in Heq. by apply isdigit_not_hyphen in Heq. }
  destruct (py_split_prefix "-" (ds ++ [c]) junk Hno)
    as (junk' & t & ends & Hsplit & Hj).
  rewrite <- !app_assoc in Hsplit. simpl in Hsplit.
  apply parse_identifier_range_None. exists (ds ++ c :: junk'). split.
  - rewrite Hsplit. simpl. left.
  - apply py_int_None. right.
    destruct (clean_endpoint_keeps_digit ds c junk' Hds Hc) as [t' ->].
    rewrite Forall_app, Forall_cons. tauto.
Qed.

Lemma parse_identifier_range_other_digit_witness :
  let superscript_two := ascii_of_N 178 in
  isdigit superscript_two = true ∧ ¬ is_decimal superscript_two
  ∧ parse_identifier_range
      (list_ascii_of_string "12" ++ superscript_two :: list_ascii_of_string "-15")
    = None
  ∧ parse_identifier_range (list_ascii_of_string "12s-15") = Some (12, 15).
Proof.
  assert (H12 : Forall is_decimal (list_ascii_of_string "12")).
  { repeat constructor; unfold is_decimal; simpl; lia. }
  assert (Hd : isdigit (ascii_of_N 178) = true) by reflexivity.
  assert (Hn : ¬ is_decimal (ascii_of_N 178)).
  { unfold is_decimal. simpl. lia. }
  split; [exact Hd|]. split; [exact Hn|]. split; [|reflexivity].
  exact (parse_identifier_range_other_digit _ _ _ H12 Hd Hn).
Defined.

(** X18. Printing tells canonical range lists apart: two canonical lists
    with no negative start that print to the same string are the same
    list. *)
Theorem identifier_ranges_to_string_injective (rs1 rs2 : list (Z * Z)) :
  canonical rs1 → Forall (λ r, 0 ≤ r.1) rs1 →
  canonical rs2 → Forall (λ r, 0 ≤ r.1) rs2 →
  identifier_ranges_to_string rs1 = identifier_ranges_to_string rs2 →
  rs1 = rs2.
Proof.
  intros Hc1 Hn1 Hc2 Hn2 Heq.
  rewrite <- (parse_identifier_ranges_to_string rs1 Hc1 Hn1).
  rewrite <- (parse_identifier_ranges_to_string rs2 Hc2 Hn2).
  by rewrite Heq.
Qed.

Lemma identifier_ranges_to_string_injective_witness :
  let rs := [(1, 30); (55, 55)] in
  canonical rs ∧ Forall (λ r, 0 ≤ r.1) rs
  ∧ identifier_ranges_to_string rs = identifier_ranges_to_string rs
  ∧ rs = rs.
Proof.
  assert (Hcan : canonical [(1, 30); (55, 55)]).
  { split; repeat constructor; unfold wf_range, gap_before; simpl; lia. }
  assert (Hnn : Forall (λ r : Z * Z, 0 ≤ r.1) [(1, 30); (55, 55)]).
  { repeat constructor; simpl; lia. }
  split; [exact Hcan|]. split; [exact Hnn|]. split; [reflexivity|].
  exact (identifier_ranges_to_string_injective _ _ Hcan Hnn Hcan Hnn eq_refl).
Defined.

End further_parsing.

(** ** Applying the identifier map *)

Section apply_map.

Context {Obj : Type}.

Implicit Types (store : gmap Z Obj) (items : list (Z * Z)) (c v i : Z).



End apply_map.

(** ** The entries of the identifier map *)

Section map_entries.

Implicit Types (st : remap_state) (c v : Z) (A : gset Z).

(** The keys of the map are the datapoints visited. *)
Lemma remap_loop_keys A st (candidates : list Z) c :
  is_Some (identifier_map (foldl (remap_step A) st candidates) !! c) →
  c ∈ candidates ∨ is_Some (identifier_map st !! c).
Proof.
  revert st. induction candidates as [|c' candidates IH]; intros st; simpl.
  - by right.
  - intros [Hc|Hc]%IH; [left; by right|].
    destruct (decide (c = c')) as [->|Hne]; [left; left|].
    rewrite remap_step_lookup in Hc by done. by right.
Qed.

(** No identifier below 1 is given when none is available below 1 and the
    maximum is not negative. *)
Lemma remap_step_positive A st c' :
  Forall (λ g, 1 ≤ g) (available_identifiers st) →
  0 ≤ max_identifier st →
  (∀ c v, identifier_map st !! c = Some v → 1 ≤ v) →
  Forall (λ g, 1 ≤ g) (available_identifiers (remap_step A st c'))
  ∧ 0 ≤ max_identifier (remap_step A st c')
  ∧ ∀ c v, identifier_map (remap_step A st c') !! c = Some v → 1 ≤ v.
Proof.
  intros Hav Hmax Hval.
  destruct (decide (c' ∈ A ∧ available_identifiers st ≠ [])) as [[Hc Hne]|Hc].
  - destruct (available_identifiers st) as [|g rest] eqn:Hst; [done|].
    rewrite (remap_step_collide A st c' g rest) by done. simpl.
    apply Forall_cons in Hav as [Hg Hrest].
    split; [done|]. split; [done|].
    intros c v [[-> <-]|[_ Hl]]%lookup_insert_Some; [done | by eapply Hval].
  - rewrite remap_step_extend.
    2:{ destruct (decide (c' ∈ A)); [right|by left].
        destruct (available_identifiers st); [done|]. destruct Hc. by split. }
    simpl. split; [done|]. split; [lia|].
    intros c v [[-> <-]|[_ Hl]]%lookup_insert_Some; [lia | by eapply Hval].
Qed.

Lemma remap_loop_positive A st (candidates : list Z) :
  Forall (λ g, 1 ≤ g) (available_identifiers st) →
  0 ≤ max_identifier st →
  (∀ c v, identifier_map st !! c = Some v → 1 ≤ v) →
  ∀ c v, identifier_map (foldl (remap_step A) st candidates) !! c = Some v →
         1 ≤ v.
Proof.
  revert st. induction candidates as [|c' candidates IH];
    intros st Hav Hmax Hval; simpl; [done|].
  destruct (remap_step_positive A st c' Hav Hmax Hval) as (? & ? & ?).
  by apply IH.
Qed.


End map_entries.

(** ** Further properties: renumbering *)

Section further_remap.



End further_remap.

(** ** Further properties: the map's entries and the missing identifiers *)

Section further_entries.

Lemma py_range_split a b c :
  a ≤ b → b ≤ c → py_range a c = py_range a b ++ py_range b c.
Proof.
  intros Hab Hbc. unfold py_range.
  replace (c - a) with ((b - a) + (c - b)) by lia.
  rewrite seqZ_app by lia. do 2 f_equal. lia.
Qed.

Lemma py_range_cons a b : a < b → py_range a b = a :: py_range (a + 1) b.
Proof.
  intros Hab. unfold py_range. rewrite seqZ_cons by lia.
  do 2 f_equal; lia.
Qed.

Lemma _find_missing_fills a (l : list Z) lst :
  StronglySorted Z.lt (a :: l) → last (a :: l) = Some lst →
  (a :: l) ++ _find_missing (a :: l) ≡ₚ py_range a (lst + 1).
Proof.
  revert a. induction l as [|b l IH]; intros a Hs Hlast.
  - injection Hlast as <-. by rewrite py_range_one.
  - rewrite last_cons_cons in Hlast.
    pose proof Hs as [Hs' Ha]%StronglySorted_inv.
    apply Forall_cons in Ha as [Hab _].
    assert (b ≤ lst).
    { apply (sorted_last_max (b :: l) lst b Hs' Hlast). left. }
    rewrite _find_missing_cons, filter_constant.
    assert (Hgap : (if decide (b - a > 1) then py_range (a + 1) b else [])
                   = py_range (a + 1) b).
    { case_decide; [done|]. unfold py_range. by rewrite seqZ_nil by lia. }
    rewrite Hgap.
    rewrite (py_range_cons a (lst + 1)) by lia.
    rewrite (py_range_split (a + 1) b (lst + 1)) by lia.
    rewrite <- (IH b Hs' Hlast). cbn [app]. constructor.
    apply (Permutation_app_swap_app (b :: l)).
Qed.

(** X20. [_find_missing] fills the holes of a strictly ascending list and
    nothing more: the list and the result together are the integers from
    the first to the last element, each once, and the result is ascending.
    A list with fewer than two elements, the empty list included, has
    nothing missing. *)
Theorem find_missing_fills_the_holes (lst : list Z) :
  (StronglySorted Z.lt lst →
   (∀ first final, head lst = Some first → last lst = Some final →
      lst ++ _find_missing lst ≡ₚ py_range first (final + 1))
   ∧ StronglySorted Z.lt (_find_missing lst))
  ∧ ((length lst < 2)%nat → _find_missing lst = []).
Proof.
  split.
  - intros Hs. destruct lst as [|a l].
    + split; [done | constructor].
    + split.
      * intros first final [= <-] Hlast. by apply _find_missing_fills.
      * by apply _find_missing_spec.
  - destruct lst as [|a [|b l]]; [done | done | simpl; lia].
Qed.

Lemma find_missing_fills_the_holes_witness :
  StronglySorted Z.lt [1; 2; 5; 9; 10]
  ∧ _find_missing [1; 2; 5; 9; 10] = [3; 4; 6; 7; 8]
  ∧ [1; 2; 5; 9; 10] ++ _find_missing [1; 2; 5; 9; 10] ≡ₚ py_range 1 (10 + 1)
  ∧ _find_missing [] = [] ∧ _find_missing [7] = [].
Proof.
  assert (Hs : StronglySorted Z.lt [1; 2; 5; 9; 10]).
  { repeat constructor; lia. }
  split; [exact Hs|]. split; [reflexivity|]. split.
  - exact (proj1 (proj1 (find_missing_fills_the_holes _) Hs) 1 10
             eq_refl eq_refl).
  - split.
    + apply (proj2 (find_missing_fills_the_holes [])). simpl. lia.
    + apply (proj2 (find_missing_fills_the_holes [7])). simpl. lia.
Defined.

(** X21. The identifier map has an entry for exactly the datapoints the
    loop visits, and when no identifier in use is negative every new
    identifier is at least 1. *)
Theorem identifier_map_entries (nodes datapoints candidates : list Z) :
  datapoints ++ nodes ≠ [] →
  Forall (λ x, 0 ≤ x) (datapoints ++ nodes) →
  ∃ m, compute_identifier_map nodes datapoints candidates = Some m
    ∧ (∀ c, is_Some (m !! c) ↔ c ∈ candidates)
    ∧ (∀ c v, m !! c = Some v → 1 ≤ v).
Proof.
  intros Hne Hnn.
  destruct (remap_init_spec nodes datapoints Hne)
    as (st0 & Hinit & Hempty & Hgaps & Hmx & Hmax & Hinv).
  unfold compute_identifier_map, remap_run. rewrite Hinit. simpl.
  eexists. split; [done|].
  assert (Huse : ∀ x, x ∈ in_use_identifiers nodes datapoints → 0 ≤ x).
  { intros x Hx%in_use_identifiers_elem. rewrite Forall_forall in Hnn.
    apply Hnn, elem_of_app. tauto. }
  split.
  - intros c. split.
    + intros [?|[v Hc]]%remap_loop_keys; [done|].
      by rewrite Hempty, lookup_empty in Hc.
    + intros Hc. by apply remap_loop_lookup; left.
  - apply remap_loop_positive.
    + destruct (initial_available_identifiers_spec
                  (in_use_identifiers nodes datapoints))
        as (gaps & Hg & _ & Hgx).
      { apply in_use_identifiers_sorted. }
      { intros Hnil. rewrite Hnil in Hmx. by apply elem_of_nil in Hmx. }
      rewrite Hgaps in Hg. injection Hg as <-.
      apply Forall_forall. intros g [_ [[? _]|(a & b & Ha%Huse & _ & ? & _)]]%Hgx;
        lia.
    + by apply Huse.
    + intros c v Hl. by rewrite Hempty, lookup_empty in Hl.
Qed.

Lemma identifier_map_entries_witness :
  [0; 2; 7] ++ [0; 2; 4] ≠ [] ∧ Forall (λ x, 0 ≤ x) ([0; 2; 7] ++ [0; 2; 4])
  ∧ ∃ m, compute_identifier_map [0; 2; 4] [0; 2; 7] [0; 2; 7] = Some m
      ∧ (∀ c, is_Some (m !! c) ↔ c ∈ [0; 2; 7])
      ∧ (∀ c v, m !! c = Some v → 1 ≤ v).
Proof.
  assert (Hnn : Forall (λ x, 0 ≤ x) ([0; 2; 7] ++ [0; 2; 4])).
  { simpl. repeat constructor; lia. }
  split; [discriminate|]. split; [exact Hnn|].
  apply (identifier_map_entries [0; 2; 4] [0; 2; 7] [0; 2; 7]);
    [discriminate | exact Hnn].
Defined.

End further_entries.

(** ** Field groups *)

Section field_groups.

Implicit Types (group other : field_group) (subgroup : option (gset Z)).

Lemma occupied_true subgroup :
  occupied subgroup = true ↔ default ∅ subgroup ≠ ∅.
Proof.
  destruct subgroup as [members|]; simpl; [|done].
  rewrite bool_decide_eq_true. split.
  - intros Hpos ->. rewrite size_empty in Hpos. lia.
  - intros Hne. destruct (decide (size members = 0%nat)) as [Hz|Hz]; [|lia].
    by apply size_empty_iff, leibniz_equiv in Hz.
Qed.

Lemma occupied_false subgroup :
  occupied subgroup = false ↔ default ∅ subgroup = ∅.
Proof.
  rewrite <- not_true_iff_false, occupied_true.
  destruct (decide (default ∅ subgroup = ∅)); tauto.
Qed.

Lemma mesh_occupied_true group (dimension : nat) :
  occupied (mesh_groups group !! dimension) = true
  ↔ mesh_members group dimension ≠ ∅.
Proof. apply occupied_true. Qed.

Lemma mesh_occupied_false group (dimension : nat) :
  occupied (mesh_groups group !! dimension) = false
  ↔ mesh_members group dimension = ∅.
Proof. apply occupied_false. Qed.

Lemma nodes_occupied_true group :
  occupied (nodes_group group) = true
  ↔ nodeset_members group DOMAIN_TYPE_NODES ≠ ∅.
Proof. apply occupied_true. Qed.

Lemma nodes_occupied_false group :
  occupied (nodes_group group) = false
  ↔ nodeset_members group DOMAIN_TYPE_NODES = ∅.
Proof. apply occupied_false. Qed.

End field_groups.

(** ** Further properties: field groups *)

Section further_field_groups.

Implicit Types (group other : field_group).

(** X22. [group_get_highest_dimension] returns the highest dimension in
    which the group has members: 3, 2 or 1 when it has elements of that
    dimension and none of a higher one, 0 when it has no element and has
    nodes, and -1 when it has neither. Datapoints do not count. *)
Theorem group_get_highest_dimension_correct group :
  let elements3 := mesh_members group 3 in
  let elements2 := mesh_members group 2 in
  let elements1 := mesh_members group 1 in
  let nodes := nodeset_members group DOMAIN_TYPE_NODES in
  -1 ≤ group_get_highest_dimension group ≤ 3
  ∧ (group_get_highest_dimension group = 3 ↔ elements3 ≠ ∅)
  ∧ (group_get_highest_dimension group = 2
     ↔ elements3 = ∅ ∧ elements2 ≠ ∅)
  ∧ (group_get_highest_dimension group = 1
     ↔ elements3 = ∅ ∧ elements2 = ∅ ∧ elements1 ≠ ∅)
  ∧ (group_get_highest_dimension group = 0
     ↔ elements3 = ∅ ∧ elements2 = ∅ ∧ elements1 = ∅ ∧ nodes ≠ ∅)
  ∧ (group_get_highest_dimension group = -1
     ↔ elements3 = ∅ ∧ elements2 = ∅ ∧ elements1 = ∅ ∧ nodes = ∅).
Proof.
  intros elements3 elements2 elements1 nodes.
  unfold group_get_highest_dimension, highest_mesh_dimension.
  destruct (occupied (mesh_groups group !! 3%nat)) eqn:H3;
    [apply mesh_occupied_true in H3 | apply mesh_occupied_false in H3].
  { fold elements3 in H3. simpl. intuition (try lia; try congruence). }
  destruct (occupied (mesh_groups group !! 2%nat)) eqn:H2;
    [apply mesh_occupied_true in H2 | apply mesh_occupied_false in H2].
  { fold elements3 in H3. fold elements2 in H2. simpl.
    intuition (try lia; try congruence). }
  destruct (occupied (mesh_groups group !! 1%nat)) eqn:H1;
    [apply mesh_occupied_true in H1 | apply mesh_occupied_false in H1].
  { fold elements3 in H3. fold elements2 in H2. fold elements1 in H1. simpl.
    intuition (try lia; try congruence). }
  destruct (occupied (nodes_group group)) eqn:H0;
    [apply nodes_occupied_true in H0 | apply nodes_occupied_false in H0];
    fold elements3 in H3; fold elements2 in H2; fold elements1 in H1;
    fold nodes in H0; simpl; intuition (try lia; try congruence).
Qed.

Lemma group_add_group_elements_loop_mesh (dimension : nat) dimensions
    group other (highest_dimension_only : bool) :
  (0 < dimension)%nat →
  group_add_group_elements_loop (dimension :: dimensions) group other
    highest_dimension_only
  = if occupied (mesh_groups other !! dimension) then
      let group' :=
        FieldGroup
          (<[dimension := default ∅ (mesh_groups group !! dimension)
                          ∪ default ∅ (mesh_groups other !! dimension)]>
             (mesh_groups group))
          (nodes_group group) (datapoints_group group) in
      if highest_dimension_only then group'
      else group_add_group_elements_loop dimensions group' other
             highest_dimension_only
    else group_add_group_elements_loop dimensions group other
           highest_dimension_only.
Proof. intros Hd. simpl. by rewrite decide_True. Qed.

Lemma group_add_group_elements_loop_nodes group other
    (highest_dimension_only : bool) :
  group_add_group_elements_loop [0%nat] group other highest_dimension_only
  = if occupied (nodes_group other) then
      FieldGroup (mesh_groups group)
        (add_conditional (nodes_group group) (nodes_group other))
        (datapoints_group group)
    else group.
Proof. reflexivity. Qed.

(** The union with a subgroup that has no members. *)
Lemma union_unoccupied (members other_members : gset Z) :
  other_members = ∅ → members = members ∪ other_members.
Proof. intros ->. by rewrite (right_id_L ∅ (∪)). Qed.

(** X23. [group_add_group_elements] with [highest_dimension_only] off
    merges the other group into the group: afterwards the elements of each
    dimension 1 to 3 and the nodes are the union of those of the two
    groups. Nothing is removed, datapoints are left alone, and a subgroup
    in which the other group has no member is neither changed nor
    created. *)
Theorem group_add_group_elements_all group other :
  let result := group_add_group_elements group other false in
  (∀ dimension : nat,
     (1 ≤ dimension ≤ 3)%nat →
     mesh_members result dimension
     = mesh_members group dimension ∪ mesh_members other dimension)
  ∧ nodeset_members result DOMAIN_TYPE_NODES
    = nodeset_members group DOMAIN_TYPE_NODES
      ∪ nodeset_members other DOMAIN_TYPE_NODES
  ∧ datapoints_group result = datapoints_group group
  ∧ (∀ dimension : nat,
       mesh_members other dimension = ∅ ∨ ¬ (1 ≤ dimension ≤ 3)%nat →
       mesh_groups result !! dimension = mesh_groups group !! dimension)
  ∧ (nodeset_members other DOMAIN_TYPE_NODES = ∅ →
     nodes_group result = nodes_group group).
Proof.
  intros result. subst result.
  unfold group_add_group_elements.
  rewrite (group_add_group_elements_loop_mesh 3) by lia.
  rewrite !(group_add_group_elements_loop_mesh 2) by lia.
  rewrite !(group_add_group_elements_loop_mesh 1) by lia.
  rewrite !group_add_group_elements_loop_nodes.
  cbn [mesh_groups nodes_group datapoints_group].
  unfold nodeset_members, nodeset_group_of.
  destruct (occupied (mesh_groups other !! 3%nat)) eqn:H3;
    [apply mesh_occupied_true in H3 | apply mesh_occupied_false in H3];
  (destruct (occupied (mesh_groups other !! 2%nat)) eqn:H2;
    [apply mesh_occupied_true in H2 | apply mesh_occupied_false in H2]);
  (destruct (occupied (mesh_groups other !! 1%nat)) eqn:H1;
    [apply mesh_occupied_true in H1 | apply mesh_occupied_false in H1]);
  (destruct (occupied (nodes_group other)) eqn:H0;
    [apply nodes_occupied_true in H0 | apply nodes_occupied_false in H0]);
  unfold nodeset_members, nodeset_group_of in H0;
  cbn [mesh_groups nodes_group datapoints_group add_conditional default];
  (split; [|split; [|split; [|split]]]);
  try done;
  try (by apply union_unoccupied);
  try (intros Hn; congruence);
  intros dimension Hd; unfold mesh_members in *; cbn [mesh_groups];
  (destruct (decide (dimension = 3%nat)) as [->|?];
   [|destruct (decide (dimension = 2%nat)) as [->|?];
     [|destruct (decide (dimension = 1%nat)) as [->|?]]]);
  repeat (rewrite lookup_insert_eq || rewrite lookup_insert_ne by done);
  cbn [default];
  first [ done
        | by apply union_unoccupied
        | lia
        | destruct Hd as [Hd|Hd]; [congruence | lia] ].
Qed.

(** X24. With [highest_dimension_only] on (the default),
    [group_add_group_elements] merges one dimension only, the one
    [group_get_highest_dimension] gives for the other group: its elements
    of that dimension when it has elements, and nothing else, not even
    its nodes; its nodes when it has no element; and nothing at all when it
    is empty. *)
Theorem group_add_group_elements_highest group other :
  let result := group_add_group_elements group other true in
  let highest := group_get_highest_dimension other in
  (∀ dimension : nat,
     (1 ≤ dimension ≤ 3)%nat →
     mesh_members result dimension
     = if decide (highest = Z.of_nat dimension)
       then mesh_members group dimension ∪ mesh_members other dimension
       else mesh_members group dimension)
  ∧ nodeset_members result DOMAIN_TYPE_NODES
    = (if decide (highest = 0)
       then nodeset_members group DOMAIN_TYPE_NODES
            ∪ nodeset_members other DOMAIN_TYPE_NODES
       else nodeset_members group DOMAIN_TYPE_NODES)
  ∧ datapoints_group result = datapoints_group group
  ∧ (highest = -1 → result = group).
Proof.
  intros result highest. subst result highest.
  unfold group_add_group_elements, group_get_highest_dimension,
    highest_mesh_dimension.
  rewrite (group_add_group_elements_loop_mesh 3) by lia.
  rewrite !(group_add_group_elements_loop_mesh 2) by lia.
  rewrite !(group_add_group_elements_loop_mesh 1) by lia.
  rewrite !group_add_group_elements_loop_nodes.
  unfold nodeset_members, nodeset_group_of.
  destruct (occupied (mesh_groups other !! 3%nat)) eqn:H3;
    [|destruct (occupied (mesh_groups other !! 2%nat)) eqn:H2;
      [|destruct (occupied (mesh_groups other !! 1%nat)) eqn:H1;
        [|destruct (occupied (nodes_group other)) eqn:H0]]];
  cbn [mesh_groups nodes_group datapoints_group add_conditional default];
  (split; [|split; [|split]]);
  try done;
  try (rewrite decide_False by lia; done);
  try (rewrite decide_True by lia; done);
  try (intros Hh; lia);
  intros dimension Hd; unfold mesh_members; cbn [mesh_groups];
  assert (Hdim : dimension = 1%nat ∨ dimension = 2%nat ∨ dimension = 3%nat)
    by lia;
  destruct Hdim as [Hdim|[Hdim|Hdim]]; subst dimension;
  case_decide; try lia;
  repeat (rewrite lookup_insert_eq || rewrite lookup_insert_ne by done);
  done.
Qed.

(** X25. [group_add_group_nodes] merges the nodes, or the datapoints, of
    the other group into the group: afterwards the members of that domain
    type are the union of those of the two groups; the mesh groups and the
    members of the other domain type are left alone; and when the other
    group has no member of the domain type the group is not changed at
    all. *)
Theorem group_add_group_nodes_correct group other
    (fieldDomainType : field_domain_type) :
  let result := group_add_group_nodes group other fieldDomainType in
  nodeset_members result fieldDomainType
  = nodeset_members group fieldDomainType
    ∪ nodeset_members other fieldDomainType
  ∧ mesh_groups result = mesh_groups group
  ∧ (∀ fieldDomainType',
       fieldDomainType' ≠ fieldDomainType →
       nodeset_group_of result fieldDomainType'
       = nodeset_group_of group fieldDomainType')
  ∧ (nodeset_members other fieldDomainType = ∅ → result = group).
Proof.
  intros result. subst result. unfold group_add_group_nodes, nodeset_members.
  destruct (occupied (nodeset_group_of other fieldDomainType)) eqn:Hocc;
    [apply occupied_true in Hocc | apply occupied_false in Hocc].
  - destruct fieldDomainType; simpl in *;
      (split; [done|]; split; [done|]; split; [|done]);
      by intros [].
  - split; [by apply union_unoccupied|]. split; [done|]. split; done.
Qed.

End further_field_groups.
